(** * adsGO-csv-parser: the IP2Location reader / parser pipeline of [parse.go]

    The Go program fetches a zip archive, extracts the entry
    [IPV6-COUNTRY-REGION-CITY.CSV] in one goroutine ([reader]), turns its rows
    into [ip2locRec] values in a second goroutine ([parser]) and waits in the
    HTTP handler ([ip2locInit]) for the first of an error or of completion.

    The development has three layers:
    - the data of the program and the body of the parser loop ([parse_row]);
    - the three goroutines as a labelled transition system over the shared
      channels ([step], [exec]);
    - an inductive invariant of that system, from which the properties of
      the pipeline are derived.

    One run of the pipeline is followed, from line 61 of [ip2locInit], where
    [fetch] has succeeded, up to the point where the handler returns an
    [appError] or starts to encode the records.  The package-level channels
    [cancel] and [done] are those of that run.

    The rest of the handler is built around that run: [fetch] before it, the
    headers and the encoding loop after it, and [ServeHTTP] around
    [ip2locInit].  The HTTP client, the zip reader and the response writer are
    libraries; each is given by what its calls return. *)

From Stdlib Require Import ZArith Ascii String Lia.
From Stdlib Require Import DecimalString DecimalNat.
From stdpp Require Import base option list strings gmap.

Local Open Scope Z_scope.

(** ** Data model *)

(** A CSV record as [encoding/csv] returns it: [[]string]. *)
Definition row := list string.

(** [var supportedCountries = map[string]struct{}{...}] *)
Definition supportedCountries : gmap string unit :=
  <["AU" := tt]> (<["CA" := tt]> (<["GB" := tt]> (<["US" := tt]> ∅))).

(** [type ip2locRec struct]; [big.Int] is an unbounded integer. *)
Record ip2locRec := {
  ToIP : Z;
  CountryCode : string;
  Region : string;
  City : string
}.

(** Go's [error] values met in the pipeline: those of [archive/zip] and
    [encoding/csv], kept abstract with their message, and the one built by
    [fmt.Errorf("Error with record: %v\n", v)], kept with its row. *)
Inductive error :=
| LibError (msg : string)
| RecordError (v : row).

(** [type appError struct] *)
Record appError := {
  Error : error;
  Message : string;
  Code : Z
}.

(** ** [big.Int.SetString(s, 10)]

    The standard library accepts an optional sign, [+] or [-], followed by
    at least one decimal digit, and requires the whole string to be
    consumed.  Underscores and base prefixes are only accepted for base 0,
    and letters are digits only for larger bases. *)

Definition digit_val (c : ascii) : option Z :=
  let n := Z.of_N (N_of_ascii c) in
  if (48 <=? n) && (n <=? 57) then Some (n - 48) else None.

(** [nat.scan] for base 10: accumulates digits; [seen] records that at
    least one digit was read.  A character that is not a digit ends the scan,
    and [SetString] then fails because input is left over. *)
Fixpoint scan_digits (s : string) (acc : Z) (seen : bool) : option Z :=
  match s with
  | EmptyString => if seen then Some acc else None
  | String c s' =>
      match digit_val c with
      | Some d => scan_digits s' (10 * acc + d) true
      | None => None
      end
  end.

Definition SetString (s : string) : option Z :=
  match s with
  | EmptyString => None
  | String c s' =>
      if Ascii.eqb c "-" then Z.opp <$> scan_digits s' 0 false
      else if Ascii.eqb c "+" then scan_digits s' 0 false
      else scan_digits s 0 false
  end.

(** ** The body of the parser loop

    One iteration of [for v := range in], after the [cancelled()] test, ends
    in one of four ways. *)
Inductive flow (A : Type) :=
| Next (a : A)            (* falls through to the next statement *)
| Continue                (* [continue] *)
| Abort (e : error)       (* [abort <- err; close(cancel); return] *)
| Panic.                  (* run-time panic: index out of range *)
Arguments Next {A} a.
Arguments Continue {A}.
Arguments Abort {A} e.
Arguments Panic {A}.

#[global] Instance flow_ret : MRet flow := @Next.
#[global] Instance flow_bind : MBind flow := fun A B f m =>
  match m with
  | Next a => f a
  | Continue => Continue
  | Abort e => Abort e
  | Panic => Panic
  end.

(** [v[i]] on a slice: a run-time panic when [i] is out of range. *)
Definition index (v : row) (i : nat) : flow string :=
  match v !! i with
  | Some f => Next f
  | None => Panic
  end.

(** Lines 165 to 181 of [parse.go]: the record built from row [v]. *)
Definition parse_row (v : row) : flow ip2locRec :=
  f1 ← index v 1;
  ipNum ← match SetString f1 with
          | Some n => Next n
          | None => Abort (RecordError v)
          end;
  f2 ← index v 2;
  if String.eqb f2 "-" then Continue else
  match supportedCountries !! f2 with
  | Some _ =>
      f4 ← index v 4;
      f5 ← index v 5;
      Next {| ToIP := ipNum; CountryCode := f2; Region := f4; City := f5 |}
  | None =>
      Next {| ToIP := ipNum; CountryCode := f2;
              Region := EmptyString; City := EmptyString |}
  end.

(** ** The archive as the reader meets it

    [archive/zip] and [encoding/csv] are libraries; the archive is given by
    what their calls return.  A CSV reader yields its records one at a time
    and then ends with [io.EOF] or with another error. *)

Inductive csv_end :=
| EndEOF
| EndError (msg : string).

Record csv_reader := {
  Records : list row;
  End : csv_end
}.

(** [r.Read()] *)
Definition Read (r : csv_reader) : (row + csv_end) * csv_reader :=
  match Records r with
  | v :: vs => (inl v, {| Records := vs; End := End r |})
  | [] => (inr (End r), r)
  end.

(** An entry of the archive: [f.Name], and what [f.Open()] followed by
    [csv.NewReader] gives. *)
Record zip_file := {
  Name : string;
  Open : string + csv_reader
}.

(** What [zip.NewReader(bytes.NewReader(body), resLen)] returns:
    an error, or [zipPack.File]. *)
Definition archive := (string + list zip_file)%type.

Definition target : string := "IPV6-COUNTRY-REGION-CITY.CSV".

(** ** The goroutines *)

(** Control points of [reader]. *)
Inductive reader_pc :=
| RStart (body : archive)                        (* line 120 *)
| RFiles (fs : list zip_file)                    (* line 127, entries left *)
| RLoop (r : csv_reader) (fs : list zip_file)    (* line 142 *)
| RRead (r : csv_reader) (fs : list zip_file)    (* line 145 *)
| RSend (rec : row) (r : csv_reader) (fs : list zip_file)  (* line 154 *)
| RAbort (err : string)                          (* lines 122, 131, 150 *)
| RCancel                                        (* lines 123, 132, 151 *)
| RDefer                                         (* deferred close(out) *)
| RExit.

(** Control points of [parser]. *)
Inductive parser_pc :=
| PRecv                   (* line 161 *)
| PCheck (v : row)        (* line 162 *)
| PBody (v : row)         (* lines 165 to 182 *)
| PAbort (e : error)      (* line 167 *)
| PCancel                 (* line 168 *)
| PDone                   (* line 184 *)
| PExit.

(** What [ip2locInit] hands back: an [appError], or the records it
    encodes into the response. *)
Inductive response :=
| Failure (e : appError)
| Served (out : list ip2locRec).

(** Control points of [ip2locInit] once both goroutines are started. *)
Inductive handler_pc :=
| CSelect                 (* line 71 *)
| CServe                  (* lines 77 to 84 *)
| CReturn (r : response).

Inductive panic :=
| IndexOutOfRange
| CloseOfClosedChannel
| SendOnClosedChannel.

(** The channels [line] (buffered), [cancel] and [done] (only ever closed),
    the slice [recs], and the three control points.  [chErr] is unbuffered
    and holds nothing.  A panic in any goroutine ends the process. *)
Record state := {
  line : list row;
  line_closed : bool;
  cancel : bool;
  done : bool;
  recs : list ip2locRec;
  rd : reader_pc;
  ps : parser_pc;
  co : handler_pc;
  crash : option panic
}.

Definition set_line (l : list row) (s : state) : state :=
  {| line := l; line_closed := line_closed s; cancel := cancel s; done := done s;
     recs := recs s; rd := rd s; ps := ps s; co := co s; crash := crash s |}.
Definition set_line_closed (s : state) : state :=
  {| line := line s; line_closed := true; cancel := cancel s; done := done s;
     recs := recs s; rd := rd s; ps := ps s; co := co s; crash := crash s |}.
Definition set_cancel (s : state) : state :=
  {| line := line s; line_closed := line_closed s; cancel := true; done := done s;
     recs := recs s; rd := rd s; ps := ps s; co := co s; crash := crash s |}.
Definition set_done (s : state) : state :=
  {| line := line s; line_closed := line_closed s; cancel := cancel s; done := true;
     recs := recs s; rd := rd s; ps := ps s; co := co s; crash := crash s |}.
Definition set_recs (l : list ip2locRec) (s : state) : state :=
  {| line := line s; line_closed := line_closed s; cancel := cancel s; done := done s;
     recs := l; rd := rd s; ps := ps s; co := co s; crash := crash s |}.
Definition set_rd (pc : reader_pc) (s : state) : state :=
  {| line := line s; line_closed := line_closed s; cancel := cancel s; done := done s;
     recs := recs s; rd := pc; ps := ps s; co := co s; crash := crash s |}.
Definition set_ps (pc : parser_pc) (s : state) : state :=
  {| line := line s; line_closed := line_closed s; cancel := cancel s; done := done s;
     recs := recs s; rd := rd s; ps := pc; co := co s; crash := crash s |}.
Definition set_co (pc : handler_pc) (s : state) : state :=
  {| line := line s; line_closed := line_closed s; cancel := cancel s; done := done s;
     recs := recs s; rd := rd s; ps := ps s; co := pc; crash := crash s |}.
Definition set_crash (p : panic) (s : state) : state :=
  {| line := line s; line_closed := line_closed s; cancel := cancel s; done := done s;
     recs := recs s; rd := rd s; ps := ps s; co := co s; crash := Some p |}.

(** [make(chan []string, 500000)] *)
Definition line_cap : Z := 500000.

(** [&appError{e, "Error preparing IP2Location data", 404}] *)
Definition preparing (e : error) : appError :=
  {| Error := e; Message := "Error preparing IP2Location data"; Code := 404 |}.

(** [abort <- e]: [chErr] is unbuffered, so the send goes through only
    while [ip2locInit] waits in its [select], which then returns. *)
Definition send_abort (e : error) (s : state) : option state :=
  match co s with
  | CSelect => Some (set_co (CReturn (Failure (preparing e))) s)
  | _ => None
  end.

(** [close(cancel)] *)
Definition close_cancel (s : state) : state :=
  if cancel s then set_crash CloseOfClosedChannel s else set_cancel s.

Definition step_reader (s : state) : option state :=
  match rd s with
  | RStart (inl e) => Some (set_rd (RAbort e) s)
  | RStart (inr files) => Some (set_rd (RFiles files) s)
  | RFiles [] => Some (set_rd RDefer s)
  | RFiles (f :: fs) =>
      if String.eqb (Name f) target then
        match Open f with
        | inl e => Some (set_rd (RAbort e) s)
        | inr r => Some (set_rd (RLoop r fs) s)
        end
      else Some (set_rd (RFiles fs) s)
  | RLoop r fs =>
      if cancel s then Some (set_rd RDefer s) else Some (set_rd (RRead r fs) s)
  | RRead r fs =>
      match Read r with
      | (inl rec, r') => Some (set_rd (RSend rec r' fs) s)
      | (inr EndEOF, _) => Some (set_rd (RFiles fs) s)
      | (inr (EndError e), _) => Some (set_rd (RAbort e) s)
      end
  | RSend rec r fs =>
      if line_closed s then Some (set_crash SendOnClosedChannel s)
      else if Z.of_nat (length (line s)) <? line_cap
           then Some (set_rd (RLoop r fs) (set_line (line s ++ [rec]) s))
           else None
  | RAbort e => set_rd RCancel <$> send_abort (LibError e) s
  | RCancel => Some (set_rd RDefer (close_cancel s))
  | RDefer =>
      if line_closed s then Some (set_crash CloseOfClosedChannel s)
      else Some (set_rd RExit (set_line_closed s))
  | RExit => None
  end.

Definition step_parser (s : state) : option state :=
  match ps s with
  | PRecv =>
      match line s with
      | v :: l => Some (set_ps (PCheck v) (set_line l s))
      | [] => if line_closed s then Some (set_ps PDone s) else None
      end
  | PCheck v =>
      if cancel s then Some (set_ps PExit s) else Some (set_ps (PBody v) s)
  | PBody v =>
      match parse_row v with
      | Next rec => Some (set_ps PRecv (set_recs (recs s ++ [rec]) s))
      | Continue => Some (set_ps PRecv s)
      | Abort e => Some (set_ps (PAbort e) s)
      | Panic => Some (set_crash IndexOutOfRange s)
      end
  | PAbort e => set_ps PCancel <$> send_abort e s
  | PCancel => Some (set_ps PExit (close_cancel s))
  | PDone =>
      if done s then Some (set_crash CloseOfClosedChannel s)
      else Some (set_ps PExit (set_done s))
  | PExit => None
  end.

Definition step_handler (s : state) : option state :=
  match co s with
  | CSelect => if done s then Some (set_co CServe s) else None
  | CServe => Some (set_co (CReturn (Served (recs s))) s)
  | CReturn _ => None
  end.

Inductive label := LReader | LParser | LHandler.

(** One scheduling step of the goroutine [l]; [None] when it is blocked or
    has ended, or when the process has died. *)
Definition step (l : label) (s : state) : option state :=
  match crash s with
  | Some _ => None
  | None =>
      match l with
      | LReader => step_reader s
      | LParser => step_parser s
      | LHandler => step_handler s
      end
  end.

Fixpoint exec (sched : list label) (s : state) : option state :=
  match sched with
  | [] => Some s
  | l :: sched' => step l s ≫= exec sched'
  end.

(** The state of line 71, with both goroutines started on [body]. *)
Definition init (body : archive) : state :=
  {| line := []; line_closed := false; cancel := false; done := false;
     recs := []; rd := RStart body; ps := PRecv; co := CSelect; crash := None |}.

Definition terminal (s : state) : Prop := ∀ l, step l s = None.

(** ** The pipeline read in sequence

    What the reader extracts when nothing cancels it: the rows it pushes,
    in order, and the error that ends it, if any. *)

Definition csv_rows (r : csv_reader) (after : list row) : list row :=
  match End r with
  | EndEOF => Records r ++ after
  | EndError _ => Records r
  end.

Definition csv_fin (r : csv_reader) (after : option string) : option string :=
  match End r with
  | EndEOF => after
  | EndError e => Some e
  end.

Fixpoint files_rows (fs : list zip_file) : list row :=
  match fs with
  | [] => []
  | f :: fs' =>
      if String.eqb (Name f) target then
        match Open f with
        | inl _ => []
        | inr r => csv_rows r (files_rows fs')
        end
      else files_rows fs'
  end.

Fixpoint files_end (fs : list zip_file) : option string :=
  match fs with
  | [] => None
  | f :: fs' =>
      if String.eqb (Name f) target then
        match Open f with
        | inl e => Some e
        | inr r => csv_fin r (files_end fs')
        end
      else files_end fs'
  end.

Definition extracted (body : archive) : list row :=
  match body with
  | inl _ => []
  | inr fs => files_rows fs
  end.

Definition extraction_error (body : archive) : option string :=
  match body with
  | inl e => Some e
  | inr fs => files_end fs
  end.

(** How the run ends when the parser loop is fed [rows] one after the
    other, starting from the records [acc], and the reader ends with [fin]. *)
Inductive verdict :=
| VServed (out : list ip2locRec)
| VFailed (e : error)
| VCrash.

Fixpoint parser_seq (acc : list ip2locRec) (rows : list row) (fin : option string)
  : verdict :=
  match rows with
  | [] =>
      match fin with
      | None => VServed acc
      | Some e => VFailed (LibError e)
      end
  | v :: rows' =>
      match parse_row v with
      | Next rec => parser_seq (acc ++ [rec]) rows' fin
      | Continue => parser_seq acc rows' fin
      | Abort e => VFailed e
      | Panic => VCrash
      end
  end.

Definition sequential (body : archive) : verdict :=
  parser_seq [] (extracted body) (extraction_error body).

(** ** The invariant of the pipeline *)

(** Rows the reader has still to push, and the way it will end. *)
Definition rd_rows (pc : reader_pc) : list row :=
  match pc with
  | RStart body => extracted body
  | RFiles fs => files_rows fs
  | RLoop r fs | RRead r fs => csv_rows r (files_rows fs)
  | RSend rec r fs => rec :: csv_rows r (files_rows fs)
  | RAbort _ | RCancel | RDefer | RExit => []
  end.

Definition rd_end (pc : reader_pc) : option string :=
  match pc with
  | RStart body => extraction_error body
  | RFiles fs => files_end fs
  | RLoop r fs | RRead r fs | RSend _ r fs => csv_fin r (files_end fs)
  | RAbort e => Some e
  | RCancel | RDefer | RExit => None
  end.

(** The row the parser holds. *)
Definition ps_rows (pc : parser_pc) : list row :=
  match pc with
  | PCheck v | PBody v => [v]
  | _ => []
  end.

Definition pending (s : state) : list row :=
  ps_rows (ps s) ++ line s ++ rd_rows (rd s).

Definition parsing (pc : parser_pc) : Prop :=
  match pc with
  | PRecv | PCheck _ | PBody _ => True
  | _ => False
  end.

(** [cancel] is closed, or a goroutine stands right before closing it. *)
Definition tokens (s : state) : nat :=
  ((if cancel s then 1 else 0)
   + match rd s with RCancel => 1 | _ => 0 end
   + match ps s with PCancel => 1 | _ => 0 end)%nat.

Definition inv_handler (body : archive) (s : state) : Prop :=
  match co s with
  | CSelect =>
      tokens s = 0%nat ∧ rd_end (rd s) = extraction_error body ∧
      match ps s with
      | PAbort e => sequential body = VFailed e
      | PCancel => False
      | PDone => sequential body = VServed (recs s)
      | PExit => done s = true ∧ sequential body = VServed (recs s)
      | _ => parser_seq (recs s) (pending s) (rd_end (rd s)) = sequential body
      end
  | CServe =>
      tokens s = 0%nat ∧ done s = true ∧ ps s = PExit ∧
      sequential body = VServed (recs s)
  | CReturn (Served out) =>
      tokens s = 0%nat ∧ done s = true ∧ sequential body = VServed out
  | CReturn (Failure ae) =>
      tokens s = 1%nat ∧
      ∃ e, ae = preparing e ∧
           (sequential body = VFailed e ∨
            ∃ m, e = LibError m ∧ extraction_error body = Some m)
  end.

Record Inv (body : archive) (s : state) : Prop := {
  inv_crash : ∀ p, crash s = Some p → p = IndexOutOfRange ∧ sequential body = VCrash;
  inv_line : line_closed s = true ↔ rd s = RExit;
  inv_done : done s = true → ps s = PExit;
  inv_parsing : parsing (ps s) →
    ∃ rest fin, sequential body = parser_seq (recs s) (pending s ++ rest) fin;
  inv_co : inv_handler body s
}.

(** A bound on the number of steps left. *)
Fixpoint files_fuel (fs : list zip_file) : nat :=
  match fs with
  | [] => 4
  | f :: fs' =>
      (1 + match Open f with
           | inl _ => 0
           | inr r => 6 * length (Records r) + 2
           end + files_fuel fs')%nat
  end.

Definition rd_fuel (pc : reader_pc) : nat :=
  match pc with
  | RStart (inl _) => 4
  | RStart (inr fs) => 1 + files_fuel fs
  | RFiles fs => files_fuel fs
  | RLoop r fs => 6 * length (Records r) + 2 + files_fuel fs
  | RRead r fs => 6 * length (Records r) + 1 + files_fuel fs
  | RSend _ r fs => 6 * length (Records r) + 6 + files_fuel fs
  | RAbort _ => 3
  | RCancel => 2
  | RDefer => 1
  | RExit => 0
  end%nat.

Definition ps_fuel (pc : parser_pc) : nat :=
  match pc with
  | PCheck _ => 5
  | PBody _ => 4
  | PRecv => 3
  | PAbort _ => 2
  | PCancel => 1
  | PDone => 1
  | PExit => 0
  end%nat.

Definition co_fuel (pc : handler_pc) : nat :=
  match pc with
  | CSelect => 2
  | CServe => 1
  | CReturn _ => 0
  end%nat.

Definition fuel (s : state) : nat :=
  (rd_fuel (rd s) + ps_fuel (ps s) + 3 * length (line s) + co_fuel (co s)
   + match crash s with None => 1 | Some _ => 0 end)%nat.


(** ** The rest of the handler *)

(** [http.ResponseWriter], as [ip2locInit] uses it: the header map, the
    records whose JSON line has been written, and how the writes still to
    come will end ([None]: the write goes through). *)
Record ResponseWriter := {
  Header : gmap string string;
  Encoded : list ip2locRec;
  Faults : list (option string)
}.

(** [w.Header().Set(k, v)] *)
Definition header_set (k v : string) (w : ResponseWriter) : ResponseWriter :=
  {| Header := <[k := v]> (Header w); Encoded := Encoded w; Faults := Faults w |}.

(** [e.Encode(&v)] on [json.NewEncoder(w)] *)
Definition Encode (w : ResponseWriter) (v : ip2locRec)
  : ResponseWriter * option string :=
  match Faults w with
  | Some e :: fs =>
      ({| Header := Header w; Encoded := Encoded w; Faults := fs |}, Some e)
  | None :: fs =>
      ({| Header := Header w; Encoded := Encoded w ++ [v]; Faults := fs |}, None)
  | [] =>
      ({| Header := Header w; Encoded := Encoded w ++ [v]; Faults := [] |}, None)
  end.

(** [strconv.Itoa] on a length. *)
Definition Itoa (n : nat) : string := NilZero.string_of_uint (Nat.to_uint n).

Definition marshalling (e : error) : appError :=
  {| Error := e; Message := "Error marshalling IP2Location data"; Code := 404 |}.

Definition fetching (e : error) : appError :=
  {| Error := e;
     Message := "Error fetching IP2Location data from IP2Location server";
     Code := 404 |}.

(** Lines 80 to 84. *)
Fixpoint encode_all (w : ResponseWriter) (recs : list ip2locRec)
  : ResponseWriter * option appError :=
  match recs with
  | [] => (w, None)
  | v :: recs' =>
      match Encode w v with
      | (w', Some e) => (w', Some (marshalling (LibError e)))
      | (w', None) => encode_all w' recs'
      end
  end.

(** Lines 77 to 86. *)
Definition respond (w : ResponseWriter) (recs : list ip2locRec)
  : ResponseWriter * option appError :=
  encode_all
    (header_set "Recs-Length" (Itoa (length recs))
       (header_set "Content-Type" "application/json; charset=UTF-8" w))
    recs.

(** What [client.Get] and [ioutil.ReadAll(res.Body)] give [fetch]. *)
Inductive http_get :=
| GetError (e : string)
| GetResponse (read : list Byte.byte) (err : option string) (ContentLength : Z).

(** [fetch] *)
Definition fetch (g : http_get) : list Byte.byte * Z * option string :=
  match g with
  | GetError e => ([], 0, Some e)
  | GetResponse _ (Some e) _ => ([], 0, Some e)
  | GetResponse b None len => (b, len, None)
  end.

(** How [ip2locInit] ends once the pipeline has ended with [r]. *)
Definition finish (w : ResponseWriter) (r : response)
  : ResponseWriter * option appError :=
  match r with
  | Failure e => (w, Some e)
  | Served out => respond w out
  end.

(** [ip2locInit], along the schedule [sched] of its goroutines; [NewReader]
    is [zip.NewReader] on the bytes and the length that [fetch] returns.
    [None] when the schedule does not bring the handler to return. *)
Definition ip2locInit (NewReader : list Byte.byte → Z → archive)
    (g : http_get) (w : ResponseWriter) (sched : list label)
  : option (ResponseWriter * option appError) :=
  match fetch g with
  | (_, _, Some e) => Some (w, Some (fetching (LibError e)))
  | (b, len, None) =>
      s ← exec sched (init (NewReader b len));
      match co s with
      | CReturn r => Some (finish w r)
      | _ => None
      end
  end.

(** [ServeHTTP]: what is printed, and the arguments of [http.Error]. *)
Record reply := {
  Writer : ResponseWriter;
  Printed : option (error * string);
  HttpError : option (string * Z)
}.

Definition ServeHTTP (res : ResponseWriter * option appError) : reply :=
  match res with
  | (w, None) => {| Writer := w; Printed := None; HttpError := None |}
  | (w, Some e) =>
      {| Writer := w; Printed := Some (Error e, Message e);
         HttpError := Some (Message e, Code e) |}
  end.

(** Number of records, out of [n], written before the first write that
    fails. *)
Fixpoint written (faults : list (option string)) (n : nat) {struct n} : nat :=
  match n, faults with
  | O, _ => 0
  | S n', [] => S n'
  | S n', None :: fs => S (written fs n')
  | S n', Some _ :: _ => 0
  end%nat.


(** ** Vocabulary of the properties *)

(** Membership in [supportedCountries], as line 178 tests it. *)
Definition whitelisted (cc : string) : Prop := is_Some (supportedCountries !! cc).

(** A row whose country code is not the placeholder ["-"]. *)
Definition non_sentinel (v : row) : Prop := v !! 2%nat ≠ Some "-".

(** A row that has the fields its branch reads and a numeric upper bound. *)
Definition well_formed (v : row) : Prop :=
  (∃ f1, v !! 1%nat = Some f1 ∧ is_Some (SetString f1)) ∧
  (∃ f2, v !! 2%nat = Some f2 ∧ (whitelisted f2 → (6 ≤ length v)%nat)).

(** A row that the loop body gets through: skipped or turned into a record. *)
Definition processed (v : row) : Prop :=
  parse_row v = Continue ∨ ∃ r, parse_row v = Next r.


Definition record_of (v : row) : option ip2locRec :=
  match parse_row v with
  | Next r => Some r
  | _ => None
  end.

Definition is_digit (c : ascii) : bool :=
  (48 <=? Z.of_N (N_of_ascii c)) && (Z.of_N (N_of_ascii c) <=? 57).

Fixpoint all_digits (s : string) : bool :=
  match s with
  | EmptyString => true
  | String c s' => is_digit c && all_digits s'
  end.

(** A decimal numeral: an optional sign and at least one digit. *)
Definition numeral (s : string) : Prop :=
  ∃ ds, (s = ds ∨ s = String "+" ds ∨ s = String "-" ds) ∧
        ds ≠ EmptyString ∧ all_digits ds = true.

(** The records [ip2locInit] encodes into the response (lines 80 to 84);
    none when it returns the [appError] of line 73. *)
Definition encoded (r : response) : list ip2locRec :=
  match r with
  | Served out => out
  | Failure _ => []
  end.

(** Every run of the pipeline on [body] is finite, never panics, and ends
    with [ip2locInit] having returned a response in [P]. *)
Definition ends_in (body : archive) (P : response → Prop) : Prop :=
  ∀ sched s, exec sched (init body) = Some s →
    crash s = None ∧
    (∀ r, co s = CReturn r → P r) ∧
    (terminal s → ∃ r, co s = CReturn r) ∧
    (length sched ≤ fuel (init body))%nat.

(** The same, with [r] the only response. *)
Definition completes_with (body : archive) (r : response) : Prop :=
  ends_in body (λ r', r' = r).



(** The schedule in which the reader runs first, then the parser, then the
    handler. *)
Definition in_turn (r p h : nat) : list label :=
  replicate r LReader ++ replicate p LParser ++ replicate h LHandler.

(** ** Counting along a run *)

(** The step from [s] to [s'] pushes a row on the queue; appends a record. *)
Definition pushed (s s' : state) : bool :=
  Nat.ltb (length (line s)) (length (line s')).
Definition appended (s s' : state) : bool :=
  Nat.ltb (length (recs s)) (length (recs s')).

Fixpoint count_steps (f : state → state → bool) (sched : list label) (s : state)
  : nat :=
  match sched with
  | [] => 0
  | l :: sched' =>
      match step l s with
      | Some s' => ((if f s s' then 1 else 0) + count_steps f sched' s')%nat
      | None => 0
      end
  end.

(** Rows the reader may still push, and records the parser may still
    append, once [cancel] is closed. *)
Definition rd_owes (pc : reader_pc) : nat :=
  match pc with
  | RRead _ _ | RSend _ _ _ => 1
  | _ => 0
  end.

Definition ps_owes (pc : parser_pc) : nat :=
  match pc with
  | PBody _ => 1
  | _ => 0
  end.

(** Entries of the archive, and records in them, whatever their names. *)
Definition entries (body : archive) : nat :=
  match body with
  | inl _ => 0
  | inr fs => length fs
  end.

Definition records_of (f : zip_file) : nat :=
  match Open f with
  | inl _ => 0
  | inr r => length (Records r)
  end.

Definition total_records (body : archive) : nat :=
  match body with
  | inl _ => 0
  | inr fs => foldr (λ f n, (records_of f + n)%nat) 0%nat fs
  end.

(** What holds besides [Inv] once the parser has found the queue drained, and
    once [cancel] is closed. *)
Record Settled (s : state) : Prop := {
  settled_drained : ps s = PDone ∨ done s = true → rd s = RExit ∧ line s = [];
  settled_served : ∀ out, co s = CReturn (Served out) → recs s = out;
  settled_cancel : cancel s = true →
    ps s = PExit ∨ rd s = RDefer ∨ rd s = RExit
}.


(** ** Sample archives *)

Definition row_us : row :=
  ["281470681743359"; "281470681743360"; "US"; "United States of America";
   "California"; "Los Angeles"].
Definition row_fr : row := ["281470681743361"; "281470681743400"; "FR"].
Definition row_none : row := ["0"; "281470681743359"; "-"; "-"; "-"; "-"].
Definition row_bad : row := ["0"; "not-a-number"; "-"].
Definition row_nan : row := ["0"; "not-a-number"; "US"; "-"; "x"; "y"].
Definition row_neg : row := ["0"; "-5"; "FR"].
Definition row_short : row := ["2c0f:fff1::"].

Definition rec_us : ip2locRec :=
  {| ToIP := 281470681743360; CountryCode := "US";
     Region := "California"; City := "Los Angeles" |}.
Definition rec_fr : ip2locRec :=
  {| ToIP := 281470681743400; CountryCode := "FR"; Region := EmptyString; City := EmptyString |}.
Definition rec_neg : ip2locRec :=
  {| ToIP := -5; CountryCode := "FR"; Region := EmptyString; City := EmptyString |}.

Definition entry (rows : list row) (fin : csv_end) : zip_file :=
  {| Name := target; Open := inr {| Records := rows; End := fin |} |}.

Definition licence : zip_file :=
  {| Name := "LICENSE_LITE.TXT";
     Open := inr {| Records := [["licence"]]; End := EndEOF |} |}.

Definition csv_failure : string :=
  "parse error on line 2: bare quote in non-quoted field".

Definition sample : archive :=
  inr [licence; entry [row_none; row_us; row_fr] EndEOF].
Definition sample_bad : archive := inr [entry [row_us; row_bad; row_fr] EndEOF].
Definition sample_absent : list zip_file :=
  [licence; {| Name := "README_LITE.TXT"; Open := inl "zip: checksum error" |}].
Definition sample_neg : archive := inr [entry [row_neg] EndEOF].
Definition sample_short : archive := inr [entry [row_us; row_short] EndEOF].
Definition sample_double : archive := inr [entry [row_nan] (EndError csv_failure)].
Definition sample_short_first : archive := inr [entry [row_short; row_bad] EndEOF].

(** [sample] served to its end. *)
Definition sample_served : state :=
  {| line := []; line_closed := true; cancel := false; done := true;
     recs := [rec_us; rec_fr]; rd := RExit; ps := PExit;
     co := CReturn (Served [rec_us; rec_fr]); crash := None |}.


(** [sample_short] after the parser has met the short row. *)
Definition short_crashed : state :=
  {| line := []; line_closed := true; cancel := false; done := false;
     recs := [rec_us]; rd := RExit; ps := PBody row_short; co := CSelect;
     crash := Some IndexOutOfRange |}.



(** An entry cut short by a read error after two rows. *)
Definition sample_cut : archive := inr [entry [row_us; row_none] (EndError csv_failure)].

(** An entry that would crash the parser, were it read. *)
Definition sample_tail : list zip_file := [entry [row_short] EndEOF].

(** [sample_bad] after the parser has failed on its second row and closed
    [cancel], the reader being about to push the third row. *)
Definition cancelled_mid : state :=
  {| line := []; line_closed := false; cancel := true; done := false;
     recs := [rec_us]; rd := RSend row_fr {| Records := []; End := EndEOF |} [];
     ps := PExit;
     co := CReturn (Failure (preparing (RecordError row_bad))); crash := None |}.

(** [row_us] with other fields at the positions the parser does not read. *)
Definition row_us_other : row :=
  ["0"; "281470681743360"; "US"; "Etats-Unis"; "California"; "Los Angeles"; "90001"].

(** A response writer on which every write goes through, and one on which
    the second write fails. *)
Definition plain_writer : ResponseWriter :=
  {| Header := ∅; Encoded := []; Faults := [] |}.

Definition failing_writer : ResponseWriter :=
  {| Header := ∅; Encoded := []; Faults := [None; Some "broken pipe"] |}.


(** ** Proof tactics *)

(** Unfolds the loop body down to its lookups. *)
Ltac unfold_row :=
  unfold parse_row, index, mbind, flow_bind, mret, flow_ret in *.

(** The tactics below serve the proof that every step keeps [Inv].
    [use_parsing] opens the field [inv_parsing]; [solve_parsing] closes it
    again, with the rows the reader drops when it is cancelled moved to the
    unknown rest. *)
Ltac use_parsing :=
  match goal with
  | H : True → ∃ _ _, _ |- _ => destruct (H I) as (rest & fin & Hseq); clear H
  | H : False → _ |- _ => clear H
  end.

Ltac inv_fields :=
  match goal with
  | |- Inv _ _ => split; unfold inv_handler, pending, tokens in *; simpl in *
  end.

Ltac norm := rewrite <- ?app_assoc in *; simpl in *.

Ltac solve_parsing rest fin Hseq :=
  intros _;
  first [ exists rest, fin; norm; exact Hseq
        | norm;
          match type of Hseq with
          | _ = parser_seq _ (_ ++ ?l ++ rest) _ =>
              exists (l ++ rest), fin; norm; exact Hseq
          | _ = parser_seq _ (_ :: _ ++ ?l ++ rest) _ =>
              exists (l ++ rest), fin; norm; exact Hseq
          | _ = match _ with Next _ => parser_seq _ (_ ++ ?l ++ rest) _ | _ => _ end =>
              exists (l ++ rest), fin; norm; exact Hseq
          end ].

(** The queue is closed exactly when the reader has ended. *)
Ltac solve_line Hln :=
  split; [intros Hx; apply Hln in Hx; discriminate Hx | discriminate].

Ltac absurd_line Hln :=
  exfalso; destruct Hln as [Hx _]; specialize (Hx eq_refl); discriminate Hx.

Ltac use_line Hln :=
  match type of Hln with
  | true = true ↔ ?r = RExit =>
      let Hx := fresh in
      destruct Hln as [Hx _]; specialize (Hx eq_refl); subst r
  end.

(** [done] is closed only after the parser has ended. *)
Ltac solve_done Hdn :=
  let Hx := fresh in intros Hx; apply Hdn in Hx; discriminate Hx.

(** The case of [inv_handler] where an error has been returned. *)
Ltac solve_failure :=
  split; [first [done | lia]|]; eexists; split; [reflexivity|];
  first [ left; congruence | right; eexists; split; [reflexivity|]; congruence ].

Ltac basic Hln :=
  try done; try congruence; try (split; intros; congruence);
  try solve_line Hln;
  try solve_failure;
  try (split_and!; norm; congruence).

(** Case analysis along [step_reader] and [step_parser]. *)
Ltac reader_cases r :=
  destruct r as [[e|fs]|[|f fs]|rr fs|rr fs|v rr fs|e| | |]; simpl in *;
  [ | | | destruct (String.eqb (Name f) target); [destruct (Open f)|]
    | | unfold Read; destruct rr as [[|v vs] [|e]] | | | | | ];
  simpl in *.

Ltac parser_cases p ln lc cn dn :=
  destruct p as [|v|v|e| | |]; simpl in *;
  [ destruct ln; [destruct lc|] | destruct cn
    | destruct (parse_row v) eqn:Erow | | destruct cn | destruct dn | ];
  simpl in *.

(** Decides [well_formed] on a given row. *)
Ltac prove_well_formed :=
  split;
  [ eexists; split; [reflexivity|]; eexists; reflexivity
  | eexists; split; [reflexivity|];
    first [ intros _; vm_compute; lia | intros [u Hu]; vm_compute in Hu; discriminate Hu ] ].


(** Arithmetic on queue lengths under [Nat.ltb]. *)
Ltac ltb_lia :=
  repeat match goal with
         | H : (_ <? _)%nat = true |- _ => apply Nat.ltb_lt in H
         | H : (_ <? _)%nat = false |- _ => apply Nat.ltb_ge in H
         end;
  rewrite ?length_app in *; simpl in *; try done; try lia.


(** * Properties *)

(** ** The scenarios of the specification, run on the loop body *)

Example parse_row_us :
  parse_row ["0"; "281470681743360"; "US"; "United States"; "California"; "Los Angeles"]
  = Next {| ToIP := 281470681743360; CountryCode := "US";
            Region := "California"; City := "Los Angeles" |}.
Proof. vm_compute. reflexivity. Qed.

Example parse_row_fr :
  parse_row ["0"; "281470681743360"; "FR"; "France"; "Ile-de-France"; "Paris"]
  = Next {| ToIP := 281470681743360; CountryCode := "FR";
            Region := EmptyString; City := EmptyString |}.
Proof. vm_compute. reflexivity. Qed.

Example parse_row_sentinel :
  parse_row ["0"; "281470681743360"; "-"; "-"; "x"; "y"] = Continue.
Proof. vm_compute. reflexivity. Qed.

Example parse_row_nan :
  parse_row ["0"; "not-a-number"; "US"; "-"; "x"; "y"]
  = Abort (RecordError ["0"; "not-a-number"; "US"; "-"; "x"; "y"]).
Proof. vm_compute. reflexivity. Qed.


Example parse_row_blank :
  parse_row ["0"; "42"; EmptyString]
  = Next {| ToIP := 42; CountryCode := EmptyString; Region := EmptyString; City := EmptyString |}.
Proof. vm_compute. reflexivity. Qed.

(** ** What the loop body does with a row *)

Lemma parse_row_next v r :
  parse_row v = Next r ↔
  ∃ f1, v !! 1%nat = Some f1 ∧ SetString f1 = Some (ToIP r) ∧
        v !! 2%nat = Some (CountryCode r) ∧ CountryCode r ≠ "-" ∧
        match supportedCountries !! CountryCode r with
        | Some _ => v !! 4%nat = Some (Region r) ∧ v !! 5%nat = Some (City r)
        | None => Region r = EmptyString ∧ City r = EmptyString
        end.
Proof.
  unfold_row. split.
  - destruct (v !! 1%nat) as [f1|]; [|done].
    destruct (SetString f1) as [n|] eqn:En; [|done].
    destruct (v !! 2%nat) as [f2|]; [|done].
    destruct (String.eqb f2 "-") eqn:Es; [done|].
    apply String.eqb_neq in Es.
    destruct (supportedCountries !! f2) eqn:Ew.
    + destruct (v !! 4%nat) as [f4|]; [|done].
      destruct (v !! 5%nat) as [f5|]; [|done].
      intros [= <-]; simpl. rewrite Ew. by exists f1.
    + intros [= <-]; simpl. rewrite Ew. by exists f1.
  - intros (f1 & -> & -> & -> & Hs & Hw).
    apply String.eqb_neq in Hs. rewrite Hs.
    destruct r as [n cc rg ct]; simpl in *.
    destruct (supportedCountries !! cc).
    + by destruct Hw as [-> ->].
    + by destruct Hw as [-> ->].
Qed.

Lemma parse_row_continue v :
  parse_row v = Continue ↔
  ∃ f1 n, v !! 1%nat = Some f1 ∧ SetString f1 = Some n ∧ v !! 2%nat = Some "-".
Proof.
  unfold_row. split.
  - destruct (v !! 1%nat) as [f1|]; [|done].
    destruct (SetString f1) as [n|] eqn:En; [|done].
    destruct (v !! 2%nat) as [f2|]; [|done].
    destruct (String.eqb f2 "-") eqn:Es.
    + apply String.eqb_eq in Es as ->. eauto.
    + destruct (supportedCountries !! f2); [|done].
      destruct (v !! 4%nat); [|done]. by destruct (v !! 5%nat).
  - by intros (f1 & n & -> & -> & ->).
Qed.

Lemma parse_row_abort v e :
  parse_row v = Abort e ↔
  e = RecordError v ∧ ∃ f1, v !! 1%nat = Some f1 ∧ SetString f1 = None.
Proof.
  unfold_row. split.
  - destruct (v !! 1%nat) as [f1|]; [|done].
    destruct (SetString f1) as [n|] eqn:En; [|intros [= <-]; eauto].
    destruct (v !! 2%nat) as [f2|]; [|done].
    destruct (String.eqb f2 "-"); [done|].
    destruct (supportedCountries !! f2); [|done].
    destruct (v !! 4%nat); [|done]. by destruct (v !! 5%nat).
  - by intros (-> & f1 & -> & ->).
Qed.

Lemma parse_row_panic v :
  parse_row v = Panic ↔
  v !! 1%nat = None ∨
  (∃ f1, v !! 1%nat = Some f1 ∧ is_Some (SetString f1)) ∧
  (v !! 2%nat = None ∨
   ∃ f2, v !! 2%nat = Some f2 ∧ f2 ≠ "-" ∧ whitelisted f2 ∧
         (v !! 4%nat = None ∨ v !! 5%nat = None)).
Proof.
  unfold_row. unfold whitelisted. split.
  - destruct (v !! 1%nat) as [f1|]; [|by left].
    destruct (SetString f1) as [n|] eqn:En; [|done].
    intros H. right. split; [eauto|]. revert H.
    destruct (v !! 2%nat) as [f2|]; [|by left].
    destruct (String.eqb f2 "-") eqn:Es; [done|].
    apply String.eqb_neq in Es.
    destruct (supportedCountries !! f2) eqn:Ew; [|done].
    intros H. right. exists f2. split_and!; eauto.
    destruct (v !! 4%nat); [|by left]. destruct (v !! 5%nat); [done|by right].
  - intros [->|[(f1 & -> & [n ->]) [->|(f2 & -> & Hs & [u Hw] & Hf)]]]; try done.
    apply String.eqb_neq in Hs. rewrite Hs, Hw.
    destruct Hf as [->| ->]; [done|]. by destruct (v !! 4%nat).
Qed.

Lemma short_row_panics v : (length v ≤ 1)%nat → parse_row v = Panic.
Proof.
  intros Hlen. apply parse_row_panic. left.
  apply lookup_ge_None. lia.
Qed.

Lemma well_formed_processed v : well_formed v → processed v.
Proof.
  intros [(f1 & H1 & [n Hn]) (f2 & H2 & Hlen)].
  destruct (decide (f2 = "-")) as [->|Hs].
  - left. apply parse_row_continue. eauto.
  - right. destruct (supportedCountries !! f2) as [u|] eqn:Ew.
    + assert (Hl : (6 ≤ length v)%nat) by (apply Hlen; red; eauto).
      destruct (lookup_lt_is_Some_2 v 4) as [f4 H4]; [lia|].
      destruct (lookup_lt_is_Some_2 v 5) as [f5 H5]; [lia|].
      exists {| ToIP := n; CountryCode := f2; Region := f4; City := f5 |}.
      apply parse_row_next; simpl. rewrite Ew. by exists f1.
    + exists {| ToIP := n; CountryCode := f2; Region := EmptyString; City := EmptyString |}.
      apply parse_row_next; simpl. rewrite Ew. by exists f1.
Qed.

Lemma processed_well_formed v : processed v → well_formed v.
Proof.
  intros [H|[r H]].
  - apply parse_row_continue in H as (f1 & n & H1 & Hn & H2).
    split; [eauto|]. exists "-". split; [done|]. by intros [u Hu].
  - apply parse_row_next in H as (f1 & H1 & Hn & H2 & Hs & Hw).
    split; [eauto|]. exists (CountryCode r). split; [done|].
    intros [u Hu]. rewrite Hu in Hw. destruct Hw as [H4 H5].
    apply lookup_lt_Some in H5. lia.
Qed.


(** ** [SetString] accepts exactly the decimal numerals *)

Lemma digit_val_is_digit c : is_Some (digit_val c) ↔ is_digit c = true.
Proof.
  unfold digit_val, is_digit.
  destruct (_ && _); split; intros H; first [done | by eauto | by destruct H].
Qed.

Lemma digit_val_range c d : digit_val c = Some d → 0 ≤ d ≤ 9.
Proof.
  unfold digit_val.
  destruct (_ && _) eqn:E; [|done]. intros [= <-].
  apply andb_prop in E as [H1 H2]. lia.
Qed.

Lemma scan_digits_is_Some s : ∀ acc seen,
  is_Some (scan_digits s acc seen) ↔
  all_digits s = true ∧ (seen = true ∨ s ≠ EmptyString).
Proof.
  induction s as [|c s IH]; intros acc seen; simpl.
  - destruct seen; split; eauto.
    + by intros [].
    + intros [_ [?|?]]; done.
  - destruct (digit_val c) as [d|] eqn:Ed.
    + rewrite IH. assert (is_digit c = true) as -> by (apply digit_val_is_digit; eauto).
      simpl. split; intros [? _]; eauto.
    + assert (is_digit c = false) as ->.
      { destruct (is_digit c) eqn:E; [|done].
        apply digit_val_is_digit in E as [? ?]. congruence. }
      simpl. split; [by intros []|by intros []].
Qed.

Lemma scan_digits_nonneg s : ∀ acc seen n,
  0 ≤ acc → scan_digits s acc seen = Some n → 0 ≤ n.
Proof.
  induction s as [|c s IH]; intros acc seen n Hacc; simpl.
  - destruct seen; [|done]. by intros [= <-].
  - destruct (digit_val c) as [d|] eqn:Ed; [|done].
    apply digit_val_range in Ed. apply IH. lia.
Qed.

Lemma SetString_numeral s : is_Some (SetString s) ↔ numeral s.
Proof.
  unfold SetString, numeral. destruct s as [|c s].
  { split; [by intros []|]. by intros (ds & [<-|[?|?]] & Hne & _). }
  destruct (Ascii.eqb c "-") eqn:Em; [apply Ascii.eqb_eq in Em as ->|].
  { rewrite fmap_is_Some, scan_digits_is_Some. split.
    - intros [Hd [?|Hne]]; [done|]. exists s. eauto 10.
    - intros (ds & [<-|[?|?]] & Hne & Hd); simplify_eq; try done; eauto. }
  destruct (Ascii.eqb c "+") eqn:Ep; [apply Ascii.eqb_eq in Ep as ->|].
  { rewrite scan_digits_is_Some. split.
    - intros [Hd [?|Hne]]; [done|]. exists s. eauto 10.
    - intros (ds & [<-|[?|?]] & Hne & Hd); simplify_eq; try done; eauto. }
  apply Ascii.eqb_neq in Em, Ep.
  rewrite scan_digits_is_Some. split.
  - intros [Hd _]. exists (String c s). eauto 10.
  - intros (ds & [<-|[?|?]] & Hne & Hd); simplify_eq; eauto.
Qed.

Lemma SetString_negative s n :
  SetString s = Some n → n < 0 → ∃ ds, s = String "-" ds.
Proof.
  unfold SetString. destruct s as [|c s]; [done|].
  destruct (Ascii.eqb c "-") eqn:Em; [apply Ascii.eqb_eq in Em as ->; eauto|].
  intros H Hn. exfalso.
  destruct (Ascii.eqb c "+"); apply scan_digits_nonneg in H; lia.
Qed.

(** ** The parser loop read in sequence *)

Lemma parser_seq_split pre rows : ∀ acc fin,
  Forall processed pre →
  parser_seq acc (pre ++ rows) fin = parser_seq (acc ++ omap record_of pre) rows fin.
Proof.
  induction pre as [|u pre IH]; intros acc fin Hall; simpl.
  - by rewrite app_nil_r.
  - apply Forall_cons in Hall as [Hu Hall]. unfold record_of at 1.
    destruct Hu as [->|[r ->]]; rewrite IH by done; [done|].
    by rewrite <- app_assoc.
Qed.

Lemma parser_seq_served rows : ∀ acc fin out,
  parser_seq acc rows fin = VServed out →
  fin = None ∧ Forall processed rows ∧ out = acc ++ omap record_of rows.
Proof.
  induction rows as [|v rows IH]; intros acc fin out; simpl.
  - destruct fin; [done|]. intros [= <-]. by rewrite app_nil_r.
  - unfold record_of at 1, processed at 1.
    destruct (parse_row v) as [r| | |] eqn:Er; try done; intros H.
    + apply IH in H as (-> & Hall & ->). rewrite <- app_assoc.
      split_and!; [done| |done]. constructor; [|done]. right. eauto.
    + apply IH in H as (-> & Hall & ->).
      split_and!; [done| |done]. constructor; [|done]. by left.
Qed.

Lemma parser_seq_error acc rows m out :
  parser_seq acc rows (Some m) ≠ VServed out.
Proof. intros H. by apply parser_seq_served in H as [? _]. Qed.

(** The retained rows and their records, in the order of the rows. *)
Lemma omap_record_of rows :
  Forall processed rows →
  Forall2 (λ v r, parse_row v = Next r) (filter non_sentinel rows) (omap record_of rows).
Proof.
  induction 1 as [|v rows Hv Hall IH]; simpl; [constructor|].
  unfold record_of at 1. destruct Hv as [Hc|[r Hr]].
  - rewrite Hc. apply parse_row_continue in Hc as (f1 & n & _ & _ & H2).
    rewrite filter_cons_False; [done|]. unfold non_sentinel. by rewrite H2; intros [].
  - rewrite Hr. apply parse_row_next in Hr as Hr'.
    destruct Hr' as (f1 & _ & _ & H2 & Hs & _).
    rewrite filter_cons_True; [by constructor|].
    unfold non_sentinel. rewrite H2. congruence.
Qed.

Lemma sequential_processed body :
  extraction_error body = None → Forall processed (extracted body) →
  sequential body = VServed (omap record_of (extracted body)).
Proof.
  intros Hend Hall. unfold sequential. rewrite Hend.
  rewrite <- (app_nil_r (extracted body)) at 1.
  by rewrite parser_seq_split.
Qed.

(** The rows extracted from an archive whose only entry of the target name
    reads to its end are the rows of that entry. *)
Lemma extracted_entry before rows after :
  Forall (λ f, Name f ≠ target) before → Forall (λ f, Name f ≠ target) after →
  extracted (inr (before ++ entry rows EndEOF :: after)) = rows ∧
  extraction_error (inr (before ++ entry rows EndEOF :: after)) = None.
Proof.
  intros Hb Ha; simpl. induction Hb as [|f before Hf _ IH]; simpl.
  - unfold csv_rows, csv_fin; simpl.
    assert (Hrest : files_rows after = [] ∧ files_end after = None).
    { clear -Ha. induction Ha as [|f after Hf _ IH]; simpl; [done|].
      apply String.eqb_neq in Hf. by rewrite Hf. }
    destruct Hrest as [-> ->]. by rewrite app_nil_r.
  - apply String.eqb_neq in Hf. by rewrite Hf.
Qed.

Lemma files_rows_absent fs :
  Forall (λ f, Name f ≠ target) fs → files_rows fs = [] ∧ files_end fs = None.
Proof.
  induction 1 as [|f fs Hf _ IH]; simpl; [done|].
  apply String.eqb_neq in Hf. by rewrite Hf.
Qed.

(** ** Termination: every step uses up fuel *)

Lemma files_fuel_min fs : (4 ≤ files_fuel fs)%nat.
Proof. induction fs as [|f fs IH]; simpl; lia. Qed.

Lemma step_fuel l s s' : step l s = Some s' → (fuel s' < fuel s)%nat.
Proof.
  unfold step. destruct s as [ln lc cn dn rs r p c cr]; simpl.
  destruct cr; [done|].
  destruct l; simpl.
  - unfold step_reader, send_abort, close_cancel, fuel; simpl.
    destruct r as [[e|fs]|[|f fs]|rr fs|rr fs|v rr fs|e| | |]; simpl.
    all: try (intros [= <-]; simpl; lia).
    + pose proof (files_fuel_min fs).
      destruct (String.eqb _ _); [destruct (Open f) eqn:E|];
        intros [= <-]; simpl; rewrite ?E; lia.
    + destruct cn; intros [= <-]; simpl; lia.
    + pose proof (files_fuel_min fs).
      unfold Read. destruct rr as [[|v vs] [|e]]; simpl; intros [= <-]; simpl; lia.
    + destruct lc; [intros [= <-]; simpl; lia|].
      destruct (_ <? _); intros [= <-]; simpl. rewrite length_app. simpl. lia.
    + destruct c; simpl; intros [= <-]; simpl; lia.
    + intros [= <-]; destruct cn; simpl; lia.
    + destruct lc; intros [= <-]; simpl; lia.
  - unfold step_parser, send_abort, close_cancel, fuel; simpl.
    destruct p as [|v|v|e| | |]; simpl.
    all: try (intros [= <-]; simpl; lia).
    + destruct ln; [destruct lc|]; intros [= <-]; simpl; lia.
    + destruct cn; intros [= <-]; simpl; lia.
    + destruct (parse_row v); intros [= <-]; simpl; lia.
    + destruct c; simpl; intros [= <-]; simpl; lia.
    + intros [= <-]; destruct cn; simpl; lia.
    + destruct dn; intros [= <-]; simpl; lia.
  - unfold step_handler, fuel; simpl.
    destruct c; [destruct dn| |]; intros [= <-]; simpl; lia.
Qed.

Lemma exec_fuel sched : ∀ s s',
  exec sched s = Some s' → (length sched + fuel s' ≤ fuel s)%nat.
Proof.
  induction sched as [|l sched IH]; simpl; intros s s' Hex.
  - simplify_eq. lia.
  - destruct (step l s) as [s1|] eqn:Hst; simpl in Hex; [|done].
    apply step_fuel in Hst. apply IH in Hex. lia.
Qed.

(** ** The completion signal along a run *)







(** ** The invariant is kept by every step *)

Section Invariant.
  Context (body : archive).

Lemma init_inv : Inv body (init body).
Proof.
  split; simpl; try done.
  intros _. exists [], (extraction_error body).
  unfold pending; simpl. by rewrite app_nil_r.
Qed.

Lemma step_reader_inv s s' :
  Inv body s → crash s = None → step_reader s = Some s' → Inv body s'.
Proof.
  destruct s as [ln lc cn dn rs r p c cr]; simpl.
  intros [Hcr Hln Hdn Hpa Hco] ->; simpl in *.
  unfold inv_handler, pending, tokens in *; simpl in *.
  unfold step_reader, send_abort, close_cancel; simpl.
  destruct c as [| |[ae|out]]; simpl in *; destruct_and?.
  all: reader_cases r; repeat case_match; simplify_eq; try (intros; lia).
  all: intros; simplify_eq; simpl in *.
  all: try absurd_line Hln.
  all: try use_parsing.
  all: inv_fields; try solve_parsing rest fin Hseq; basic Hln.
Qed.

Lemma step_parser_inv s s' :
  Inv body s → crash s = None → step_parser s = Some s' → Inv body s'.
Proof.
  destruct s as [ln lc cn dn rs r p c cr]; simpl.
  intros [Hcr Hln Hdn Hpa Hco] ->; simpl in *.
  unfold inv_handler, pending, tokens in *; simpl in *.
  unfold step_parser, send_abort, close_cancel; simpl.
  destruct c as [| |[ae|out]]; simpl in *; destruct_and?.
  all: parser_cases p ln lc cn dn; simplify_eq; try (intros; lia).
  all: intros; simplify_eq; simpl in *.
  all: try (exfalso; specialize (Hdn eq_refl); discriminate Hdn).
  all: try use_parsing.
  all: try use_line Hln.
  all: inv_fields; rewrite ?Erow in *.
  all: try solve_parsing rest fin Hseq; try solve_done Hdn; basic Hln.
  all: try (split_and!; first [done | lia | congruence]).
Qed.

Lemma step_handler_inv s s' :
  Inv body s → crash s = None → step_handler s = Some s' → Inv body s'.
Proof.
  destruct s as [ln lc cn dn rs r p c cr]; simpl.
  intros [Hcr Hln Hdn Hpa Hco] ->; simpl in *.
  unfold inv_handler, pending, tokens in *; simpl in *.
  unfold step_handler; simpl.
  destruct c as [| |[ae|out]]; simpl in *; destruct_and?;
    [destruct dn| | |]; intros; simplify_eq.
  - specialize (Hdn eq_refl); subst p. destruct_and?.
    inv_fields; basic Hln.
  - inv_fields; basic Hln.
Qed.

Lemma step_inv l s s' : Inv body s → step l s = Some s' → Inv body s'.
Proof.
  unfold step. destruct (crash s) eqn:Hcr; [done|].
  destruct l; eauto using step_reader_inv, step_parser_inv, step_handler_inv.
Qed.

Lemma exec_inv sched : ∀ s s',
  Inv body s → exec sched s = Some s' → Inv body s'.
Proof.
  induction sched as [|l sched IH]; simpl; intros s s' Hinv Hex.
  - by simplify_eq.
  - destruct (step l s) as [s1|] eqn:Hst; simpl in Hex; [|done].
    eauto using step_inv.
Qed.

Lemma reachable_inv sched s : exec sched (init body) = Some s → Inv body s.
Proof. apply exec_inv, init_inv. Qed.

(** Until [ip2locInit] returns or the process dies, some goroutine can move. *)
Lemma progress s :
  Inv body s → crash s = None → (∀ r, co s ≠ CReturn r) →
  ∃ l s', step l s = Some s'.
Proof.
  destruct s as [ln lc cn dn rs r p c cr]; simpl.
  intros [Hcr Hln Hdn Hpa Hco] -> Hret; simpl in *.
  unfold inv_handler, tokens, step in *; simpl in *.
  destruct c as [| |res]; [| |by destruct (Hret res)]; cycle 1.
  { exists LHandler; simpl. eauto. }
  destruct Hco as (Htok & Hend & Hps).
  assert (Hp : (∃ s', step_parser
            {| line := ln; line_closed := lc; cancel := cn; done := dn; recs := rs;
               rd := r; ps := p; co := CSelect; crash := None |} = Some s')
          ∨ (p = PRecv ∧ ln = [] ∧ lc = false) ∨ (p = PExit ∧ dn = true)).
  { unfold step_parser, send_abort, close_cancel; simpl.
    destruct p as [|v|v|e| | |]; simpl in *; eauto.
    - destruct ln; eauto. destruct lc; eauto.
    - destruct cn; eauto.
    - destruct (parse_row v); eauto.
    - destruct dn; eauto.
    - right; right. tauto. }
  destruct Hp as [[s' Hp]|[(-> & -> & ->)|[-> ->]]].
  - exists LParser; eauto.
  - exists LReader; simpl. unfold step_reader, send_abort, close_cancel; simpl.
    destruct r as [[e|fs]|[|f fs]|rr fs|rr fs|v rr fs|e| | |]; simpl in *; eauto.
    + destruct (String.eqb _ _); eauto. destruct (Open f); eauto.
    + destruct cn; eauto.
    + unfold Read. destruct rr as [[|v vs] [|e]]; simpl; eauto.
    + destruct Hln as [_ Hx]. by specialize (Hx eq_refl).
  - exists LHandler; simpl. unfold step_handler; simpl. eauto.
Qed.

End Invariant.

(** ** What the invariant says of the ways a run can end *)

Lemma terminal_returned body s :
  Inv body s → terminal s → crash s = None → ∃ r, co s = CReturn r.
Proof.
  intros Hinv Hterm Hcr.
  destruct (co s) as [| |r] eqn:Hco; [| |eauto].
  - destruct (progress body s) as (l & s' & Hst); [done..|congruence|].
    by rewrite Hterm in Hst.
  - destruct (progress body s) as (l & s' & Hst); [done..|congruence|].
    by rewrite Hterm in Hst.
Qed.

Lemma returned_sound body s r :
  Inv body s → co s = CReturn r →
  match r with
  | Served out => sequential body = VServed out
  | Failure ae =>
      ∃ e, ae = preparing e ∧
           (sequential body = VFailed e ∨
            ∃ m, e = LibError m ∧ extraction_error body = Some m)
  end.
Proof.
  intros [_ _ _ _ Hco] Hr. unfold inv_handler in Hco. rewrite Hr in Hco.
  destruct r; [by destruct Hco|by destruct Hco as (_ & _ & ?)].
Qed.

Lemma serve_sound body s :
  Inv body s → co s = CServe → sequential body = VServed (recs s).
Proof.
  intros [_ _ _ _ Hco] Hr. unfold inv_handler in Hco. rewrite Hr in Hco.
  by destruct Hco as (_ & _ & _ & ?).
Qed.

Lemma served_records body sched s out :
  exec sched (init body) = Some s → co s = CReturn (Served out) →
  extraction_error body = None ∧ Forall processed (extracted body) ∧
  out = omap record_of (extracted body).
Proof.
  intros Hex Hco. apply reachable_inv in Hex.
  apply (returned_sound body) in Hco; [|done].
  by apply parser_seq_served in Hco.
Qed.

Lemma served_no_cancel body s :
  Inv body s → (co s = CServe ∨ ∃ out, co s = CReturn (Served out)) →
  done s = true ∧ cancel s = false.
Proof.
  intros [_ _ _ _ Hco] Hs. unfold inv_handler, tokens in Hco.
  destruct Hs as [Hs|[out Hs]]; rewrite Hs in Hco;
    destruct Hco as (Ht & Hd & _); by destruct (cancel s).
Qed.

Lemma ends_in_intro body (P : response → Prop) :
  (∀ sched s, exec sched (init body) = Some s →
     crash s = None ∧ ∀ r, co s = CReturn r → P r) →
  ends_in body P.
Proof.
  intros H sched s Hex. destruct (H sched s Hex) as [Hcr Hret].
  split_and!; [done|done| |].
  - intros Hterm. apply (terminal_returned body); [|done..].
    by eapply reachable_inv.
  - apply exec_fuel in Hex. lia.
Qed.

Lemma pipeline_served body out :
  sequential body = VServed out → completes_with body (Served out).
Proof.
  intros Hseq. apply ends_in_intro. intros sched s Hex.
  assert (Hinv := reachable_inv _ _ _ Hex). split.
  - destruct (crash s) as [p|] eqn:Hp; [|done].
    destruct (inv_crash _ _ Hinv p Hp). congruence.
  - intros r Hr. apply (returned_sound body) in Hr; [|done].
    destruct r as [ae|out'].
    + destruct Hr as (e & -> & [?|(m & -> & Hm)]); [congruence|].
      unfold sequential in Hseq. rewrite Hm in Hseq.
      by apply parser_seq_error in Hseq.
    + congruence.
Qed.

(** When the rows in sequence end in an error, every run ends with that
    error or with the error that ended the reader. *)
Lemma pipeline_failed_any body e :
  sequential body = VFailed e →
  ends_in body (λ r, r = Failure (preparing e) ∨
                     ∃ m, extraction_error body = Some m ∧
                          r = Failure (preparing (LibError m))).
Proof.
  intros Hseq. apply ends_in_intro. intros sched s Hex.
  assert (Hinv := reachable_inv _ _ _ Hex). split.
  - destruct (crash s) as [p|] eqn:Hp; [|done].
    destruct (inv_crash _ _ Hinv p Hp). congruence.
  - intros r Hr. apply (returned_sound body) in Hr; [|done].
    destruct r as [ae|out']; [|congruence].
    destruct Hr as (e' & -> & [?|(m & -> & Hm)]); [left|right; eauto].
    congruence.
Qed.

Lemma pipeline_failed body e :
  extraction_error body = None → sequential body = VFailed e →
  completes_with body (Failure (preparing e)).
Proof.
  intros Hend Hseq sched s Hex.
  destruct (pipeline_failed_any body e Hseq sched s Hex) as (Hcr & Hret & Hterm & Hlen).
  split_and!; [done| |done..].
  intros r Hr. destruct (Hret r Hr) as [?|(m & Hm & _)]; congruence.
Qed.

Lemma pipeline_crash body sched s :
  extraction_error body = None → sequential body = VCrash →
  exec sched (init body) = Some s →
  co s = CSelect ∧ (terminal s → crash s = Some IndexOutOfRange).
Proof.
  intros Hend Hseq Hex.
  assert (Hinv := reachable_inv _ _ _ Hex).
  assert (Hco : co s = CSelect).
  { destruct (co s) as [| |r] eqn:Hr; [done| |].
    - apply (serve_sound body) in Hr; [congruence|done].
    - apply (returned_sound body) in Hr; [|done].
      destruct r as [ae|out]; [|congruence].
      destruct Hr as (e' & -> & [?|(m & -> & Hm)]); congruence. }
  split; [done|]. intros Hterm.
  destruct (crash s) as [p|] eqn:Hp.
  - by destruct (inv_crash _ _ Hinv p Hp) as [-> _].
  - destruct (terminal_returned body s) as [r Hr]; [done..|congruence].
Qed.

(** A row on which the loop body panics, met after well-formed rows in an
    archive extracted without error: no run reports anything to the caller,
    and every run that can go no further has died of the panic. *)
Lemma pipeline_short_row body pre v post sched s :
  extracted body = pre ++ v :: post → extraction_error body = None →
  Forall well_formed pre → parse_row v = Panic →
  exec sched (init body) = Some s →
  co s = CSelect ∧ (terminal s → crash s = Some IndexOutOfRange).
Proof.
  intros Hrows Hend Hpre Hv Hex.
  apply (pipeline_crash body sched s); [done| |done].
  unfold sequential. rewrite Hrows, parser_seq_split; simpl.
  - by rewrite Hv.
  - eapply Forall_impl; [done|]. apply well_formed_processed.
Qed.

(** In one run [cancel] is closed at most once, and the handler is never
    left waiting. *)
Lemma cancel_closed_once body sched s :
  exec sched (init body) = Some s →
  crash s ≠ Some CloseOfClosedChannel ∧ (tokens s ≤ 1)%nat ∧
  (terminal s → crash s = None → ∃ r, co s = CReturn r).
Proof.
  intros Hex. assert (Hinv := reachable_inv _ _ _ Hex).
  split_and!.
  - intros Hc. by destruct (inv_crash _ _ Hinv _ Hc).
  - destruct Hinv as [_ _ _ _ Hco]. unfold inv_handler in Hco.
    destruct (co s) as [| |[ae|out]]; destruct Hco as [-> _]; lia.
  - by apply (terminal_returned body).
Qed.

Lemma sample_well_formed : Forall well_formed (extracted sample).
Proof.
  change (Forall well_formed [row_none; row_us; row_fr]).
  repeat (apply Forall_cons; split; [prove_well_formed|]). constructor.
Defined.


(** * The claims of the specification *)

(** C1.  When the archive is extracted without error and every row is well
    formed, every run ends with [ip2locInit] serving a collection that holds
    exactly one record for each row whose country code is not the
    placeholder, in the same positions, and none for a placeholder row: the
    collection is as long as the list of such rows, and no record has the
    placeholder as its country code. *)
Theorem C1_one_record_per_assigned_row body :
  extraction_error body = None → Forall well_formed (extracted body) →
  ∃ out, completes_with body (Served out) ∧
         Forall2 (λ v r, v !! 2%nat = Some (CountryCode r))
                 (filter non_sentinel (extracted body)) out ∧
         length out = length (filter non_sentinel (extracted body)) ∧
         Forall (λ r, CountryCode r ≠ "-") out.
Proof.
  intros Hend Hwf.
  assert (Hall : Forall processed (extracted body)).
  { eapply Forall_impl; [done|]. apply well_formed_processed. }
  exists (omap record_of (extracted body)).
  assert (H2 := omap_record_of _ Hall).
  split_and!.
  - by apply pipeline_served, sequential_processed.
  - eapply Forall2_impl; [done|]. intros v r Hr; simpl in Hr.
    by apply parse_row_next in Hr as (f1 & _ & _ & ? & _).
  - symmetry. by eapply Forall2_length.
  - eapply Forall2_Forall_r; [done|].
    apply Forall_forall. intros v _ r Hr.
    by apply parse_row_next in Hr as (f1 & _ & _ & _ & ? & _).
Qed.

Lemma C1_witness :
  ∃ out, completes_with sample (Served out) ∧
         Forall2 (λ v r, v !! 2%nat = Some (CountryCode r))
                 (filter non_sentinel (extracted sample)) out ∧
         length out = length (filter non_sentinel (extracted sample)) ∧
         Forall (λ r, CountryCode r ≠ "-") out.
Proof.
  apply (C1_one_record_per_assigned_row sample); [reflexivity|].
  apply sample_well_formed.
Defined.

(** C2.  A row whose upper-bound field is not an integer makes the loop body
    abort with the error that carries that row, whatever its country-code
    field holds, the placeholder included, and even when that field is
    missing.  With such a row among those extracted, no run serves a
    collection: whatever [ip2locInit] returns is an error, with no record
    encoded into the response.  When the row is the first that is not well
    formed, every run is finite and ends with [ip2locInit] returning an
    error; the error is the one that carries the row, unless the reader
    itself fails and its error is taken first.  When moreover the archive is
    extracted without error, it is always the one that carries the row. *)
Theorem C2_bad_upper_bound_fails_run body pre v post f1 :
  extracted body = pre ++ v :: post →
  v !! 1%nat = Some f1 → SetString f1 = None →
  parse_row v = Abort (RecordError v) ∧
  (∀ sched s, exec sched (init body) = Some s →
     co s ≠ CServe ∧
     ∀ r, co s = CReturn r → encoded r = [] ∧ ∃ ae, r = Failure ae) ∧
  (Forall well_formed pre →
   ends_in body (λ r, encoded r = [] ∧
                      (r = Failure (preparing (RecordError v)) ∨
                       ∃ m, extraction_error body = Some m ∧
                            r = Failure (preparing (LibError m)))) ∧
   (extraction_error body = None →
    completes_with body (Failure (preparing (RecordError v))))).
Proof.
  intros Hrows H1 Hbad.
  assert (Hv : parse_row v = Abort (RecordError v)).
  { apply parse_row_abort. eauto. }
  split_and!; [done| |].
  - intros sched s Hex. assert (Hinv := reachable_inv _ _ _ Hex).
    assert (Hno : ∀ out, sequential body ≠ VServed out).
    { intros out Hs. apply parser_seq_served in Hs as (_ & Hall & _).
      rewrite Hrows in Hall. apply Forall_app in Hall as [_ Hall].
      apply Forall_cons in Hall as [[Hc|[r Hr]] _]; congruence. }
    split.
    + intros Hco. apply (serve_sound body) in Hco; [|done]. by apply Hno in Hco.
    + intros [ae|out] Hr; [eauto|].
      apply (returned_sound body) in Hr; [|done]. by apply Hno in Hr.
  - intros Hpre.
    assert (Hseq : sequential body = VFailed (RecordError v)).
    { unfold sequential. rewrite Hrows, parser_seq_split; simpl.
      - by rewrite Hv.
      - eapply Forall_impl; [done|]. apply well_formed_processed. }
    split.
    + intros sched s Hex.
      destruct (pipeline_failed_any body _ Hseq sched s Hex)
        as (Hcr & Hret & Hterm & Hlen).
      split_and!; [done| |done..].
      intros r Hr. split; [|by apply Hret].
      by destruct (Hret r Hr) as [->|(m & _ & ->)].
    + intros Hend. by apply pipeline_failed.
Qed.

Lemma C2_witness :
  parse_row row_bad = Abort (RecordError row_bad) ∧
  (∀ sched s, exec sched (init sample_bad) = Some s →
     co s ≠ CServe ∧
     ∀ r, co s = CReturn r → encoded r = [] ∧ ∃ ae, r = Failure ae) ∧
  completes_with sample_bad (Failure (preparing (RecordError row_bad))).
Proof.
  destruct (C2_bad_upper_bound_fails_run sample_bad [row_us] row_bad [row_fr]
              "not-a-number" eq_refl eq_refl eq_refl) as (Hv & Hno & Hrun).
  split_and!; [exact Hv|exact Hno|].
  destruct Hrun as [_ Hc].
  - apply Forall_cons; split; [prove_well_formed|constructor].
  - apply Hc. reflexivity.
Defined.

(** C2 as the specification words it does not hold on two kinds of input.
    On [sample_double] the reader fails as well, and the error that
    [ip2locInit] returns can be the reader's, which carries no row.  On
    [sample_short_first] the parser dies on the short row before it reaches
    the row with the bad upper bound, and [ip2locInit] never returns. *)
Lemma C2_failure_may_not_carry_the_row :
  ¬ (∀ body v f1 sched s r,
       v ∈ extracted body → v !! 1%nat = Some f1 → SetString f1 = None →
       exec sched (init body) = Some s → co s = CReturn r →
       r = Failure (preparing (RecordError v))) ∧
  ¬ (∀ body v f1 sched s,
       v ∈ extracted body → v !! 1%nat = Some f1 → SetString f1 = None →
       exec sched (init body) = Some s → terminal s →
       ∃ r, co s = CReturn r).
Proof.
  split; intros H.
  - assert (Hr : Failure (preparing (LibError csv_failure))
                 = Failure (preparing (RecordError row_nan))); [|discriminate Hr].
    eapply (H sample_double row_nan "not-a-number"
              (replicate 7 LReader ++ replicate 3 LParser ++ replicate 3 LReader));
      [by constructor|reflexivity|reflexivity|vm_compute; reflexivity|reflexivity].
  - edestruct (H sample_short_first row_bad "not-a-number" (in_turn 12 3 0))
      as [r Hr];
      [by repeat constructor|reflexivity|reflexivity|vm_compute; reflexivity
      |by intros []|discriminate Hr].
Qed.

(** C3.  For every row that the loop body turns into a record, the country
    code of the record is the field at index 2; outside the whitelist the
    region and the city of the record are empty, and inside the whitelist
    they are the fields at indices 4 and 5. *)
Theorem C3_region_city_only_for_whitelist v r :
  parse_row v = Next r →
  ∃ cc, v !! 2%nat = Some cc ∧ CountryCode r = cc ∧
        (¬ whitelisted cc → Region r = EmptyString ∧ City r = EmptyString) ∧
        (whitelisted cc → v !! 4%nat = Some (Region r) ∧ v !! 5%nat = Some (City r)).
Proof.
  intros Hr. apply parse_row_next in Hr as (f1 & _ & _ & H2 & _ & Hw).
  exists (CountryCode r). split_and!; [done..| |].
  - intros Hn. destruct (supportedCountries !! CountryCode r) eqn:E; [|done].
    destruct Hn. red. eauto.
  - intros [u Hu]. by rewrite Hu in Hw.
Qed.

Lemma C3_witness :
  ∃ cc, row_us !! 2%nat = Some cc ∧ CountryCode rec_us = cc ∧
        (¬ whitelisted cc → Region rec_us = EmptyString ∧ City rec_us = EmptyString) ∧
        (whitelisted cc → row_us !! 4%nat = Some (Region rec_us) ∧
                          row_us !! 5%nat = Some (City rec_us)).
Proof.
  apply (C3_region_city_only_for_whitelist row_us rec_us).
  reflexivity.
Defined.

(** C4.  Whenever a run ends with [ip2locInit] serving a collection, the
    records of the collection are, position by position, the records of the
    rows of the entry whose country code is not the placeholder, in the order
    of the rows. *)
Theorem C4_output_order_is_row_order body sched s out :
  exec sched (init body) = Some s → co s = CReturn (Served out) →
  Forall2 (λ v r, parse_row v = Next r) (filter non_sentinel (extracted body)) out.
Proof.
  intros Hex Hco.
  destruct (served_records _ _ _ _ Hex Hco) as (_ & Hall & ->).
  by apply omap_record_of.
Qed.

Lemma C4_witness :
  Forall2 (λ v r, parse_row v = Next r)
          (filter non_sentinel (extracted sample)) [rec_us; rec_fr].
Proof.
  apply (C4_output_order_is_row_order sample (in_turn 16 11 2) sample_served);
    reflexivity.
Defined.

(** C5.  When the archive opens and none of its entries is named
    IPV6-COUNTRY-REGION-CITY.CSV, every run ends with [ip2locInit] serving
    the empty collection, without an error. *)
Theorem C5_absent_entry_serves_nothing fs :
  Forall (λ f, Name f ≠ target) fs → completes_with (inr fs) (Served []).
Proof.
  intros Habs. apply pipeline_served.
  destruct (files_rows_absent fs Habs) as [Hrows Hend].
  unfold sequential; simpl. by rewrite Hrows, Hend.
Qed.

Lemma C5_witness : completes_with (inr sample_absent) (Served []).
Proof.
  apply (C5_absent_entry_serves_nothing sample_absent).
  repeat (apply Forall_cons; split; [by vm_compute|]). constructor.
Defined.

(** C6, as the specification states it, fails: a served record can have a
    negative upper bound. *)
Lemma C6_negative_upper_bound_retained :
  ¬ (∀ body sched s out,
       exec sched (init body) = Some s → co s = CReturn (Served out) →
       Forall (λ r, 0 ≤ ToIP r) out).
Proof.
  intros H.
  assert (Hneg : Forall (λ r, 0 ≤ ToIP r) [rec_neg]).
  { eapply (H sample_neg (in_turn 9 5 2)); [vm_compute|]; reflexivity. }
  apply Forall_cons in Hneg as [Hneg _]. simpl in Hneg. lia.
Qed.

(** C6, amended.  The upper bound of every retained record is the value of
    the field at index 1 read as a decimal numeral with an optional sign; it
    is negative only when the field starts with a minus sign.  A row is
    skipped only when that field is such a numeral, and a row whose field is
    not one, when it is the first row that is not well formed and the archive
    is extracted without error, makes every run end with the error that
    carries the row. *)
Theorem C6_upper_bound_is_signed_numeral body pre v post f1 :
  extracted body = pre ++ v :: post → extraction_error body = None →
  Forall well_formed pre → v !! 1%nat = Some f1 →
  (∀ r, parse_row v = Next r →
        numeral f1 ∧ SetString f1 = Some (ToIP r) ∧
        (ToIP r < 0 → ∃ ds, f1 = String "-" ds)) ∧
  (parse_row v = Continue → numeral f1) ∧
  (¬ numeral f1 → completes_with body (Failure (preparing (RecordError v)))).
Proof.
  intros Hrows Hend Hpre H1. split_and!.
  - intros r Hr. apply parse_row_next in Hr as (f & Hf & Hn & _).
    assert (f = f1) as -> by congruence.
    split_and!; [|done|].
    + apply SetString_numeral. eauto.
    + by apply SetString_negative.
  - intros Hc. apply parse_row_continue in Hc as (f & n & Hf & Hn & _).
    assert (f = f1) as -> by congruence.
    apply SetString_numeral. eauto.
  - intros Hnum.
    assert (Hbad : SetString f1 = None).
    { destruct (SetString f1) eqn:E; [|done].
      destruct Hnum. apply SetString_numeral. eauto. }
    apply pipeline_failed; [done|].
    unfold sequential. rewrite Hrows, parser_seq_split; simpl.
    + assert (parse_row v = Abort (RecordError v)) as ->; [|done].
      apply parse_row_abort. eauto.
    + eapply Forall_impl; [done|]. apply well_formed_processed.
Qed.

Lemma C6_witness :
  (∀ r, parse_row row_neg = Next r →
        numeral "-5" ∧ SetString "-5" = Some (ToIP r) ∧
        (ToIP r < 0 → ∃ ds, "-5" = String "-" ds)) ∧
  (parse_row row_neg = Continue → numeral "-5") ∧
  (¬ numeral "-5" → completes_with sample_neg (Failure (preparing (RecordError row_neg)))).
Proof.
  apply (C6_upper_bound_is_signed_numeral sample_neg [] row_neg [] "-5");
    [reflexivity|reflexivity|constructor|reflexivity].
Defined.

(** C7, on the archive whose entry holds a row of a single field.  The loop
    body panics on that row; in every run [ip2locInit] is still waiting in
    its [select], so no failure is reported to the caller, and every run that
    can go no further has ended in the index-out-of-range panic, which such
    runs do reach. *)
Theorem C7_short_row_crashes_process :
  parse_row row_short = Panic ∧
  (∀ sched s, exec sched (init sample_short) = Some s →
     co s = CSelect ∧ (terminal s → crash s = Some IndexOutOfRange)) ∧
  (∃ sched s, exec sched (init sample_short) = Some s ∧ terminal s).
Proof.
  split_and!; [done| |].
  - intros sched s Hex.
    apply (pipeline_short_row sample_short [row_us] row_short [] sched s);
      try done.
    apply Forall_cons; split; [prove_well_formed|constructor].
  - exists (in_turn 12 6 0), short_crashed. split; [reflexivity|].
    by intros [].
Qed.

Lemma C7_witness :
  co short_crashed = CSelect ∧
  (terminal short_crashed → crash short_crashed = Some IndexOutOfRange).
Proof.
  apply (proj1 (proj2 C7_short_row_crashes_process) (in_turn 12 6 0)).
  reflexivity.
Defined.




(** C9, on the archive whose entry holds a row with a non-numeric upper
    bound followed by a CSV error.  Both goroutines come to send an error.
    There is a run in which the reader's error is taken and the parser stays
    blocked for ever in its send, and a run in which the parser's error is
    taken and the reader stays blocked for ever in its send, so that the
    queue is never closed. *)
Theorem C9_second_failure_blocks_forever :
  (∃ sched s, exec sched (init sample_double) = Some s ∧ terminal s ∧
              co s = CReturn (Failure (preparing (LibError csv_failure))) ∧
              ps s = PAbort (RecordError row_nan)) ∧
  (∃ sched s, exec sched (init sample_double) = Some s ∧ terminal s ∧
              co s = CReturn (Failure (preparing (RecordError row_nan))) ∧
              rd s = RAbort csv_failure ∧ line_closed s = false).
Proof.
  split.
  - exists (replicate 7 LReader ++ replicate 3 LParser ++ replicate 3 LReader).
    eexists. split; [vm_compute; reflexivity|].
    split_and!; [|reflexivity..]. by intros [].
  - exists (replicate 7 LReader ++ replicate 5 LParser).
    eexists. split; [vm_compute; reflexivity|].
    split_and!; [|reflexivity..]. by intros [].
Qed.




(** * Further properties of the code *)

(** ** Once the queue is drained, once [cancel] is closed *)

Lemma init_settled body : Settled (init body).
Proof. split; simpl; intros; repeat (destruct_or?; simplify_eq). Qed.

Lemma served_done body s out :
  Inv body s → co s = CReturn (Served out) → done s = true.
Proof.
  intros [_ _ _ _ Hco] Hs. unfold inv_handler in Hco. rewrite Hs in Hco.
  by destruct Hco as (_ & ? & _).
Qed.

Lemma step_settled body l s s' :
  Inv body s → Settled s → step l s = Some s' → Settled s'.
Proof.
  intros Hinv. assert (Hsd := λ out, served_done body s out Hinv).
  revert Hinv Hsd.
  unfold step. destruct s as [ln lc cn dn rs r p c cr]; simpl.
  intros [_ Hln Hdn _ _] Hsd [Hdr Hsv Hcn]; simpl in *.
  destruct cr; [done|].
  destruct l; simpl.
  - unfold step_reader, send_abort, close_cancel; simpl.
    destruct r as [[e|fs]|[|f fs]|rr fs|rr fs|v rr fs|e| | |]; simpl;
      repeat case_match; intros; simplify_eq/=.
    all: split; simpl; intros; eauto.
    all: try (destruct Hdr as [Hx _]; [done|]; discriminate Hx).
    all: try (destruct Hcn as [?|[Hx|Hx]]; [done|by left|discriminate Hx..]).
  - unfold step_parser, send_abort, close_cancel; simpl.
    destruct p as [|v|v|e| | |]; simpl;
      [destruct ln; [destruct lc|] | destruct cn | destruct (parse_row v)
       | destruct c | destruct cn | destruct dn | ];
      intros; simplify_eq/=.
    all: split; simpl; intros; eauto.
    all: try (by left).
    all: try (apply Hsd, Hdn in H; discriminate H).
    all: try (destruct H as [H|H]; [discriminate H|apply Hdn in H; discriminate H]).
    all: try (destruct Hcn as [Hx|Hx]; [done|discriminate Hx|by right]).
    all: try (destruct Hdr as [Hx _]; [by left|]; done).
    split; [by apply Hln|done].
  - unfold step_handler; simpl.
    destruct c as [| |res]; [destruct dn| |]; intros; simplify_eq/=.
    all: split; simpl; intros; simplify_eq; eauto.
Qed.

Lemma reachable_settled body sched s :
  exec sched (init body) = Some s → Settled s.
Proof.
  assert (Hgen : ∀ s0, Inv body s0 → Settled s0 → exec sched s0 = Some s → Settled s).
  { induction sched as [|l sched IH]; simpl; intros s0 Hinv Hset Hex.
    - by simplify_eq.
    - destruct (step l s0) as [s1|] eqn:Hst; simpl in Hex; [|done].
      eauto using step_inv, step_settled. }
  apply Hgen; [apply init_inv|apply init_settled].
Qed.

(** ** Channels, progress and termination *)

(** X1.  [reader], lines 117 to 158: along every run the queue [line] is
    closed exactly when the reader has ended, through its deferred
    [close(out)]; no run panics on a send on the closed queue or on closing a
    closed channel; and a reader that has reached its deferred close can
    always carry it out. *)
Theorem X1_queue_closed_when_reader_ends body sched s :
  exec sched (init body) = Some s →
  (line_closed s = true ↔ rd s = RExit) ∧
  crash s ≠ Some SendOnClosedChannel ∧
  crash s ≠ Some CloseOfClosedChannel ∧
  (rd s = RDefer → crash s = None →
   ∃ s', step LReader s = Some s' ∧ rd s' = RExit ∧ line_closed s' = true ∧
         crash s' = None).
Proof.
  intros Hex. assert (Hinv := reachable_inv _ _ _ Hex).
  destruct Hinv as [Hcr Hln _ _ _]. split_and!; [done| | |].
  - intros Hc. by destruct (Hcr _ Hc).
  - intros Hc. by destruct (Hcr _ Hc).
  - intros Hrd Hnc. unfold step, step_reader. rewrite Hnc, Hrd.
    destruct (decide (line_closed s = true)) as [Hl|Hl].
    + apply Hln in Hl. congruence.
    + apply not_true_is_false in Hl. rewrite Hl.
      eexists. split; [done|]. by simpl.
Qed.

Lemma X1_witness :
  (line_closed sample_served = true ↔ rd sample_served = RExit) ∧
  crash sample_served ≠ Some SendOnClosedChannel ∧
  crash sample_served ≠ Some CloseOfClosedChannel ∧
  (rd sample_served = RDefer → crash sample_served = None →
   ∃ s', step LReader sample_served = Some s' ∧ rd s' = RExit ∧
         line_closed s' = true ∧ crash s' = None).
Proof.
  apply (X1_queue_closed_when_reader_ends sample (in_turn 16 11 2)).
  reflexivity.
Defined.

(** X2.  [ip2locInit], lines 71 to 75, with [reader] and [parser]: as long
    as the handler has not returned and nothing has panicked, some goroutine
    can move; so a run that can go no further has either returned from the
    handler or died on an index out of range. *)
Theorem X2_handler_never_left_waiting body sched s :
  exec sched (init body) = Some s →
  (crash s = None → (∀ r, co s ≠ CReturn r) → ∃ l s', step l s = Some s') ∧
  (terminal s → (∃ r, co s = CReturn r) ∨ crash s = Some IndexOutOfRange).
Proof.
  intros Hex. assert (Hinv := reachable_inv _ _ _ Hex). split.
  - intros Hcr Hco. by apply (progress body).
  - intros Hterm. destruct (crash s) as [p|] eqn:Hp.
    + right. by destruct (inv_crash _ _ Hinv p Hp) as [-> _].
    + left. by apply (terminal_returned body).
Qed.

Lemma X2_witness :
  (crash short_crashed = None → (∀ r, co short_crashed ≠ CReturn r) →
   ∃ l s', step l short_crashed = Some s') ∧
  (terminal short_crashed →
   (∃ r, co short_crashed = CReturn r) ∨ crash short_crashed = Some IndexOutOfRange).
Proof.
  apply (X2_handler_never_left_waiting sample_short (in_turn 12 6 0)).
  reflexivity.
Defined.

Lemma files_fuel_bound fs :
  (files_fuel fs ≤ 6 * total_records (inr fs) + 3 * entries (inr fs) + 4)%nat.
Proof.
  induction fs as [|f fs IH]; [simpl; lia|].
  cbn [files_fuel total_records entries foldr length] in *.
  unfold records_of at 1. destruct (Open f); lia.
Qed.

(** X3.  Every run is finite: it has at most six steps for each CSV record
    of the archive, three for each entry, and eleven more. *)
Theorem X3_run_length_bounded body sched s :
  exec sched (init body) = Some s →
  (length sched ≤ 6 * total_records body + 3 * entries body + 11)%nat.
Proof.
  intros Hex. apply exec_fuel in Hex.
  assert (fuel (init body) ≤ 6 * total_records body + 3 * entries body + 11)%nat;
    [|lia].
  unfold fuel; simpl. destruct body as [e|fs]; simpl; [lia|].
  pose proof (files_fuel_bound fs) as Hb. simpl in Hb. lia.
Qed.

Lemma X3_witness :
  (length (in_turn 16 11 2) ≤ 6 * total_records sample + 3 * entries sample + 11)%nat.
Proof.
  apply (X3_run_length_bounded sample (in_turn 16 11 2) sample_served).
  reflexivity.
Defined.

(** ** How a run fails *)

Lemma parser_seq_failed rows : ∀ acc fin e,
  parser_seq acc rows fin = VFailed e →
  (Forall processed rows ∧ ∃ m, fin = Some m ∧ e = LibError m) ∨
  (∃ pre v post, rows = pre ++ v :: post ∧ Forall processed pre ∧
                 parse_row v = Abort e).
Proof.
  induction rows as [|v rows IH]; intros acc fin e; simpl.
  - destruct fin as [m|]; [|done]. intros [= <-]. left. eauto.
  - destruct (parse_row v) as [r| | |] eqn:Er; try done.
    + intros H. apply IH in H as [[Hall Hm]|(pre & u & post & -> & Hall & Hu)].
      * left. split; [|done]. constructor; [right; eauto|done].
      * right. exists (v :: pre), u, post. split_and!; [done| |done].
        constructor; [right; eauto|done].
    + intros H. apply IH in H as [[Hall Hm]|(pre & u & post & -> & Hall & Hu)].
      * left. split; [|done]. constructor; [by left|done].
      * right. exists (v :: pre), u, post. split_and!; [done| |done].
        constructor; [by left|done].
    + intros [= <-]. right. by exists [], v, rows.
Qed.

Lemma parser_seq_crash rows : ∀ acc fin,
  parser_seq acc rows fin = VCrash →
  ∃ pre v post, rows = pre ++ v :: post ∧ Forall processed pre ∧
                parse_row v = Panic.
Proof.
  induction rows as [|v rows IH]; intros acc fin; simpl.
  - by destruct fin.
  - destruct (parse_row v) as [r| | |] eqn:Er; try done.
    + intros H. apply IH in H as (pre & u & post & -> & Hall & Hu).
      exists (v :: pre), u, post. split_and!; [done| |done].
      constructor; [right; eauto|done].
    + intros H. apply IH in H as (pre & u & post & -> & Hall & Hu).
      exists (v :: pre), u, post. split_and!; [done| |done].
      constructor; [by left|done].
    + intros _. by exists [], v, rows.
Qed.

Lemma processed_all_well_formed rows :
  Forall processed rows → Forall well_formed rows.
Proof. intros H. eapply Forall_impl; [done|]. apply processed_well_formed. Qed.

Lemma well_formed_all_processed rows :
  Forall well_formed rows → Forall processed rows.
Proof. intros H. eapply Forall_impl; [done|]. apply well_formed_processed. Qed.

(** X4.  [ip2locInit], line 73, with [reader] and [parser], line 167: an
    error returned from the pipeline carries the message
    "Error preparing IP2Location data" and the code 404, and it is either the
    error that ended extraction or the row whose field 1 is not a numeral, all
    the rows before that row being well formed. *)
Theorem X4_returned_error_is_the_first body sched s ae :
  exec sched (init body) = Some s → co s = CReturn (Failure ae) →
  Message ae = "Error preparing IP2Location data" ∧ Code ae = 404 ∧
  ((∃ m, extraction_error body = Some m ∧ Error ae = LibError m) ∨
   (∃ pre v post f1,
      extracted body = pre ++ v :: post ∧ Forall well_formed pre ∧
      v !! 1%nat = Some f1 ∧ SetString f1 = None ∧ Error ae = RecordError v)).
Proof.
  intros Hex Hco. assert (Hinv := reachable_inv _ _ _ Hex).
  apply (returned_sound body) in Hco as (e & -> & Hwhy); [|done].
  split_and!; [done..|]. simpl.
  destruct Hwhy as [Hseq|(m & -> & Hm)]; [|left; eauto].
  apply parser_seq_failed in Hseq
    as [[_ (m & Hm & ->)]|(pre & v & post & Hrows & Hall & Hv)].
  - left. eauto.
  - right. apply parse_row_abort in Hv as (-> & f1 & H1 & Hbad).
    exists pre, v, post, f1.
    split_and!; [done|by apply processed_all_well_formed|done..].
Qed.

Lemma X4_witness :
  Message (preparing (RecordError row_bad)) = "Error preparing IP2Location data" ∧
  Code (preparing (RecordError row_bad)) = 404 ∧
  ((∃ m, extraction_error sample_bad = Some m ∧
         Error (preparing (RecordError row_bad)) = LibError m) ∨
   (∃ pre v post f1,
      extracted sample_bad = pre ++ v :: post ∧ Forall well_formed pre ∧
      v !! 1%nat = Some f1 ∧ SetString f1 = None ∧
      Error (preparing (RecordError row_bad)) = RecordError v)).
Proof.
  eapply (X4_returned_error_is_the_first sample_bad
            (in_turn 15 7 0)).
  - vm_compute. reflexivity.
  - reflexivity.
Defined.

Lemma panic_row_short v : parse_row v = Panic → (length v < 6)%nat.
Proof.
  intros H. apply parse_row_panic in H.
  destruct H as [H|[_ [H|(f2 & _ & _ & _ & [H|H])]]];
    apply lookup_ge_None in H; lia.
Qed.

(** X5.  [parser], lines 165 to 179: the only panic of a run is an index out
    of range, and it happens on a row of fewer than six fields that only
    well-formed rows precede. *)
Theorem X5_panic_only_on_short_row body sched s p :
  exec sched (init body) = Some s → crash s = Some p →
  p = IndexOutOfRange ∧
  ∃ pre v post, extracted body = pre ++ v :: post ∧ Forall well_formed pre ∧
                parse_row v = Panic ∧ (length v < 6)%nat.
Proof.
  intros Hex Hp. assert (Hinv := reachable_inv _ _ _ Hex).
  destruct (inv_crash _ _ Hinv p Hp) as [-> Hseq]. split; [done|].
  apply parser_seq_crash in Hseq as (pre & v & post & Hrows & Hall & Hv).
  exists pre, v, post.
  split_and!; [done|by apply processed_all_well_formed|done|by apply panic_row_short].
Qed.

Lemma X5_witness :
  IndexOutOfRange = IndexOutOfRange ∧
  ∃ pre v post, extracted sample_short = pre ++ v :: post ∧ Forall well_formed pre ∧
                parse_row v = Panic ∧ (length v < 6)%nat.
Proof.
  apply (X5_panic_only_on_short_row sample_short (in_turn 12 6 0) short_crashed);
    reflexivity.
Defined.

Lemma pipeline_extraction_error body m :
  extraction_error body = Some m → Forall well_formed (extracted body) →
  completes_with body (Failure (preparing (LibError m))).
Proof.
  intros Hend Hwf.
  assert (Hseq : sequential body = VFailed (LibError m)).
  { unfold sequential. rewrite Hend.
    rewrite <- (app_nil_r (extracted body)).
    rewrite parser_seq_split by by apply well_formed_all_processed. done. }
  intros sched s Hex.
  destruct (pipeline_failed_any body _ Hseq sched s Hex)
    as (Hcr & Hret & Hterm & Hlen).
  split_and!; [done| |done..].
  intros r Hr. destruct (Hret r Hr) as [?|(m' & Hm' & ->)]; [done|].
  congruence.
Qed.

(** X6.  [reader], lines 120 to 124, 129 to 133 and 149 to 152: when
    extraction ends with an error and every row read before it is well formed,
    every run is finite and ends with the handler returning that error. *)
Theorem X6_extraction_error_fails_run body m :
  extraction_error body = Some m → Forall well_formed (extracted body) →
  completes_with body (Failure (preparing (LibError m))).
Proof. apply pipeline_extraction_error. Qed.

Lemma X6_witness :
  completes_with sample_cut (Failure (preparing (LibError csv_failure))).
Proof.
  apply (X6_extraction_error_fails_run sample_cut csv_failure); [reflexivity|].
  change (Forall well_formed [row_us; row_none]).
  repeat (apply Forall_cons; split; [prove_well_formed|]). constructor.
Defined.

(** X7.  Whenever the handler serves a collection, extraction has ended
    without error, every row was well formed, and the collection has as many
    records as there are rows whose country code is not the sentinel. *)
Theorem X7_serves_only_whole_archives body sched s out :
  exec sched (init body) = Some s → co s = CReturn (Served out) →
  extraction_error body = None ∧ Forall well_formed (extracted body) ∧
  length out = length (filter non_sentinel (extracted body)).
Proof.
  intros Hex Hco.
  destruct (served_records _ _ _ _ Hex Hco) as (Hend & Hall & ->).
  split_and!; [done|by apply processed_all_well_formed|].
  symmetry. eapply Forall2_length. by apply omap_record_of.
Qed.

Lemma X7_witness :
  extraction_error sample = None ∧ Forall well_formed (extracted sample) ∧
  length [rec_us; rec_fr] = length (filter non_sentinel (extracted sample)).
Proof.
  apply (X7_serves_only_whole_archives sample (in_turn 16 11 2) sample_served);
    reflexivity.
Defined.

(** ** Archives of several entries *)

(** A run can always be carried on until no goroutine can move. *)
Lemma exists_terminal s : ∃ sched s', exec sched s = Some s' ∧ terminal s'.
Proof.
  remember (fuel s) as n eqn:Hn. revert s Hn.
  induction n as [n IH] using lt_wf_ind. intros s ->.
  destruct (step LReader s) as [s1|] eqn:H1.
  { destruct (IH (fuel s1) (step_fuel _ _ _ H1) s1 eq_refl) as (sched & s' & Hex & Ht).
    exists (LReader :: sched), s'. simpl. by rewrite H1. }
  destruct (step LParser s) as [s1|] eqn:H2.
  { destruct (IH (fuel s1) (step_fuel _ _ _ H2) s1 eq_refl) as (sched & s' & Hex & Ht).
    exists (LParser :: sched), s'. simpl. by rewrite H2. }
  destruct (step LHandler s) as [s1|] eqn:H3.
  { destruct (IH (fuel s1) (step_fuel _ _ _ H3) s1 eq_refl) as (sched & s' & Hex & Ht).
    exists (LHandler :: sched), s'. simpl. by rewrite H3. }
  exists [], s. split; [done|]. by intros [].
Qed.

Lemma ends_in_returns body P :
  ends_in body P → ∃ sched s r, exec sched (init body) = Some s ∧
                                co s = CReturn r ∧ P r.
Proof.
  intros Hends.
  destruct (exists_terminal (init body)) as (sched & s & Hex & Hterm).
  destruct (Hends sched s Hex) as (_ & Hret & Hfin & _).
  destruct (Hfin Hterm) as [r Hr]. exists sched, s, r. eauto.
Qed.

Lemma completes_sequential body out :
  completes_with body (Served out) ↔ sequential body = VServed out.
Proof.
  split; [|apply pipeline_served].
  intros Hc. apply ends_in_returns in Hc as (sched & s & r & Hex & Hr & ->).
  apply reachable_inv in Hex. by apply (returned_sound body) in Hr.
Qed.

Lemma files_rows_app fs1 fs2 :
  files_rows (fs1 ++ fs2)
  = match files_end fs1 with
    | None => files_rows fs1 ++ files_rows fs2
    | Some _ => files_rows fs1
    end.
Proof.
  induction fs1 as [|f fs1 IH]; simpl; [done|].
  destruct (String.eqb (Name f) target); [|done].
  destruct (Open f) as [e|r]; [done|].
  unfold csv_rows, csv_fin. destruct (End r); [|done].
  rewrite IH. destruct (files_end fs1); [done|]. by rewrite app_assoc.
Qed.

Lemma files_end_app fs1 fs2 :
  files_end (fs1 ++ fs2)
  = match files_end fs1 with
    | None => files_end fs2
    | Some m => Some m
    end.
Proof.
  induction fs1 as [|f fs1 IH]; simpl; [done|].
  destruct (String.eqb (Name f) target); [|done].
  destruct (Open f) as [e|r]; [done|].
  unfold csv_fin. by destruct (End r).
Qed.

(** X8.  [reader], line 127: the entries of the archive are read one after
    the other.  If the entries [fs1] serve [out1] and the entries [fs2] serve
    [out2], then the archive [fs1 ++ fs2] serves [out1 ++ out2]. *)
Theorem X8_entries_served_in_archive_order fs1 fs2 out1 out2 :
  completes_with (inr fs1) (Served out1) →
  completes_with (inr fs2) (Served out2) →
  completes_with (inr (fs1 ++ fs2)) (Served (out1 ++ out2)).
Proof.
  rewrite !completes_sequential. unfold sequential; simpl.
  intros H1 H2.
  apply parser_seq_served in H1 as (Hend1 & Hall1 & ->).
  apply parser_seq_served in H2 as (Hend2 & Hall2 & ->).
  rewrite files_rows_app, files_end_app, Hend1, Hend2. simpl.
  rewrite parser_seq_split by done. simpl.
  rewrite <- (app_nil_r (files_rows fs2)) at 1.
  by rewrite parser_seq_split.
Qed.

Lemma X8_witness :
  completes_with (inr ([entry [row_us] EndEOF] ++ [licence; entry [row_none; row_fr] EndEOF]))
                 (Served ([rec_us] ++ [rec_fr])).
Proof.
  apply (X8_entries_served_in_archive_order
           [entry [row_us] EndEOF] [licence; entry [row_none; row_fr] EndEOF]
           [rec_us] [rec_fr]);
    by apply pipeline_served.
Defined.

(** X9.  [reader], lines 131 to 133 and 150 to 152: after an entry that
    fails, the entries left are never read.  Whatever they hold, the rows
    extracted are those of the entries up to the failing one, extraction ends
    with the error of that entry, and no run serves a collection.  When
    moreover every row read before the failure is well formed, every run is
    finite and ends with the handler returning that error. *)
Theorem X9_entries_after_a_failure_unread fs1 fs2 m :
  extraction_error (inr fs1) = Some m →
  extracted (inr (fs1 ++ fs2)) = extracted (inr fs1) ∧
  extraction_error (inr (fs1 ++ fs2)) = Some m ∧
  (∀ sched s out, exec sched (init (inr (fs1 ++ fs2))) = Some s →
     co s ≠ CReturn (Served out)) ∧
  (Forall well_formed (extracted (inr fs1)) →
   completes_with (inr (fs1 ++ fs2)) (Failure (preparing (LibError m)))).
Proof.
  simpl. intros Hend.
  assert (Hrows : files_rows (fs1 ++ fs2) = files_rows fs1)
    by by rewrite files_rows_app, Hend.
  assert (Hfin : files_end (fs1 ++ fs2) = Some m)
    by by rewrite files_end_app, Hend.
  split_and!; [done..| |].
  - intros sched s out Hex Hco.
    destruct (served_records _ _ _ _ Hex Hco) as (Hnone & _).
    simpl in Hnone. congruence.
  - intros Hwf. apply pipeline_extraction_error; simpl; [done|].
    by rewrite Hrows.
Qed.

Lemma X9_witness :
  completes_with (inr ([entry [row_us] (EndError csv_failure)] ++ sample_tail))
                 (Failure (preparing (LibError csv_failure))).
Proof.
  apply (proj2 (proj2 (proj2 (X9_entries_after_a_failure_unread
           [entry [row_us] (EndError csv_failure)] sample_tail csv_failure
           eq_refl)))).
  change (Forall well_formed [row_us]).
  apply Forall_cons; split; [prove_well_formed|constructor].
Defined.

(** ** After [cancel] is closed *)

Lemma step_after_cancel l s s' :
  step l s = Some s' → cancel s = true →
  (crash s' = None → cancel s' = true) ∧
  ((if pushed s s' then 1 else 0) + rd_owes (rd s') ≤ rd_owes (rd s))%nat ∧
  ((if appended s s' then 1 else 0) + ps_owes (ps s') ≤ ps_owes (ps s))%nat.
Proof.
  unfold step, pushed, appended.
  destruct s as [ln lc cn dn rs r p c cr]; simpl.
  destruct cr; [done|]. intros H ->. revert H.
  destruct l; simpl.
  - unfold step_reader, send_abort, close_cancel; simpl.
    destruct r as [[e|fs]|[|f fs]|rr fs|rr fs|v rr fs|e| | |]; simpl;
      repeat case_match; intros; simplify_eq/=; split_and!; ltb_lia.
  - unfold step_parser, send_abort, close_cancel; simpl.
    destruct p as [|v|v|e| | |]; simpl;
      repeat case_match; intros; simplify_eq/=; split_and!; ltb_lia.
  - unfold step_handler; simpl.
    destruct c; repeat case_match; intros; simplify_eq/=; split_and!; ltb_lia.
Qed.

Lemma count_after_cancel sched : ∀ s,
  cancel s = true →
  (count_steps pushed sched s ≤ rd_owes (rd s))%nat ∧
  (count_steps appended sched s ≤ ps_owes (ps s))%nat.
Proof.
  induction sched as [|l sched IH]; intros s Hc; simpl; [lia|].
  destruct (step l s) as [s'|] eqn:Hst; [|lia].
  destruct (step_after_cancel _ _ _ Hst Hc) as (Hc' & Hr & Hp).
  destruct (crash s') as [p|] eqn:Hcr.
  - assert (Hstop : ∀ f, count_steps f sched s' = 0%nat).
    { intros f. destruct sched as [|l' sched']; simpl; [done|].
      unfold step. by rewrite Hcr. }
    rewrite !Hstop. lia.
  - destruct (IH s' (Hc' eq_refl)). lia.
Qed.

(** X10.  [cancelled], lines 108 to 115, as [reader] and [parser] test it:
    from any state in which [cancel] is closed, and along any continuation, at
    most one more row is pushed on the queue and at most one more record is
    appended. *)
Theorem X10_one_more_row_after_cancel s sched :
  cancel s = true →
  (count_steps pushed sched s ≤ 1)%nat ∧ (count_steps appended sched s ≤ 1)%nat.
Proof.
  intros Hc. destruct (count_after_cancel sched s Hc) as [Hr Hp].
  assert (rd_owes (rd s) ≤ 1)%nat by (destruct (rd s); simpl; lia).
  assert (ps_owes (ps s) ≤ 1)%nat by (destruct (ps s); simpl; lia).
  lia.
Qed.

Lemma X10_witness :
  (count_steps pushed (in_turn 3 0 0) cancelled_mid ≤ 1)%nat ∧
  (count_steps appended (in_turn 3 0 0) cancelled_mid ≤ 1)%nat.
Proof.
  apply (X10_one_more_row_after_cancel cancelled_mid (in_turn 3 0 0)).
  reflexivity.
Defined.

(** The bound is reached: the row in the reader's hands is still pushed. *)
Example cancelled_mid_counts :
  exec (in_turn 10 8 0) (init sample_bad) = Some cancelled_mid ∧
  count_steps pushed (in_turn 3 0 0) cancelled_mid = 1%nat ∧
  count_steps appended (in_turn 3 0 0) cancelled_mid = 0%nat.
Proof. split_and!; reflexivity. Qed.

(** ** Where the goroutines stand when a run ends *)

(** X11.  [ip2locInit], lines 75 to 84: when the handler goes on to serve,
    both goroutines have ended, the queue is closed and empty, [cancel] is
    open, nothing has panicked, the collection served is [recs], and no step
    of a goroutine is left. *)
Theorem X11_nothing_left_running_on_success body sched s :
  exec sched (init body) = Some s →
  co s = CServe ∨ (∃ out, co s = CReturn (Served out)) →
  rd s = RExit ∧ ps s = PExit ∧ line s = [] ∧ line_closed s = true ∧
  cancel s = false ∧ crash s = None ∧
  (∀ out, co s = CReturn (Served out) → out = recs s) ∧
  ∀ l, l ≠ LHandler → step l s = None.
Proof.
  intros Hex Hco.
  assert (Hinv := reachable_inv _ _ _ Hex).
  assert (Hset := reachable_settled _ _ _ Hex).
  destruct (served_no_cancel body s Hinv Hco) as [Hd Hc].
  destruct (settled_drained _ Hset (or_intror Hd)) as [Hrd Hln].
  assert (Hps := inv_done _ _ Hinv Hd).
  assert (Hcr : crash s = None).
  { destruct (crash s) as [p|] eqn:Hp; [|done].
    destruct (inv_crash _ _ Hinv p Hp) as [_ Hseq].
    destruct Hco as [Hco|[out Hco]].
    - apply (serve_sound body) in Hco; [congruence|done].
    - apply (returned_sound body) in Hco; [congruence|done]. }
  split_and!; [done..|by apply (inv_line _ _ Hinv)|done|done| |].
  - intros out Ho. symmetry. by apply (settled_served _ Hset).
  - intros l Hl. unfold step, step_reader, step_parser. rewrite Hcr, Hrd, Hps.
    by destruct l.
Qed.

Lemma X11_witness :
  rd sample_served = RExit ∧ ps sample_served = PExit ∧ line sample_served = [] ∧
  line_closed sample_served = true ∧ cancel sample_served = false ∧
  crash sample_served = None ∧
  (∀ out, co sample_served = CReturn (Served out) → out = recs sample_served) ∧
  ∀ l, l ≠ LHandler → step l sample_served = None.
Proof.
  apply (X11_nothing_left_running_on_success sample (in_turn 16 11 2));
    [reflexivity|].
  right. by exists [rec_us; rec_fr].
Defined.

(** X12.  When a run without panic can go no further, the parser has
    returned or is blocked sending its error (line 167), and the reader has
    returned, is blocked sending its error, or is blocked pushing on a full
    queue: the parser is never left waiting on the queue. *)
Theorem X12_parser_never_waits_for_ever body sched s :
  exec sched (init body) = Some s → terminal s → crash s = None →
  (ps s = PExit ∨ ∃ e, ps s = PAbort e) ∧
  (rd s = RExit ∨ (∃ e, rd s = RAbort e) ∨
   ∃ v r fs, rd s = RSend v r fs ∧ line_cap ≤ Z.of_nat (length (line s))).
Proof.
  intros Hex Hterm Hcr.
  assert (Hinv := reachable_inv _ _ _ Hex).
  assert (Hset := reachable_settled _ _ _ Hex).
  destruct (terminal_returned body s Hinv Hterm Hcr) as [res Hres].
  assert (Hrd : rd s = RExit ∨ (∃ e, rd s = RAbort e) ∨
            ∃ v r fs, rd s = RSend v r fs ∧ line_cap ≤ Z.of_nat (length (line s))).
  { specialize (Hterm LReader). unfold step, step_reader in Hterm.
    rewrite Hcr in Hterm.
    destruct (rd s) as [[e|fs]|[|f fs]|rr fs|rr fs|v rr fs|e| | |];
      try done; eauto.
    - by repeat case_match.
    - by repeat case_match.
    - unfold Read in Hterm. by repeat case_match.
    - right; right. exists v, rr, fs. split; [done|].
      destruct (line_closed s); [done|].
      destruct (Z.ltb_spec (Z.of_nat (length (line s))) line_cap); [done|lia].
    - by repeat case_match. }
  split; [|done].
  specialize (Hterm LParser). unfold step, step_parser in Hterm.
  rewrite Hcr in Hterm.
  destruct (ps s) as [|v|v|e| | |] eqn:Hps; try done; eauto.
  - exfalso. destruct (line s) as [|v ln] eqn:Hln; [|done].
    destruct (line_closed s) eqn:Hlc; [done|].
    assert (Hne : rd s ≠ RExit).
    { intros Hx. apply (inv_line _ _ Hinv) in Hx. congruence. }
    destruct Hrd as [?|[[e Hre]|(v & r & fs & _ & Hfull)]]; [done| |].
    + destruct res as [ae|out].
      * destruct Hinv as [_ _ _ _ Hco]. unfold inv_handler, tokens in Hco.
        rewrite Hres, Hre, Hps in Hco. destruct Hco as [Htok _].
        destruct (cancel s) eqn:Hc; [|simpl in Htok; lia].
        destruct (settled_cancel _ Hset Hc) as [?|[?|?]]; congruence.
      * apply (served_done body) in Hres; [|done].
        apply (inv_done _ _ Hinv) in Hres. congruence.
    + simpl in Hfull. unfold line_cap in Hfull. lia.
  - by repeat case_match.
  - by repeat case_match.
  - by repeat case_match.
Qed.

Lemma X12_witness :
  (ps sample_served = PExit ∨ ∃ e, ps sample_served = PAbort e) ∧
  (rd sample_served = RExit ∨ (∃ e, rd sample_served = RAbort e) ∨
   ∃ v r fs, rd sample_served = RSend v r fs ∧
             line_cap ≤ Z.of_nat (length (line sample_served))).
Proof.
  apply (X12_parser_never_waits_for_ever sample (in_turn 16 11 2));
    [reflexivity| |reflexivity].
  by intros [].
Defined.

(** ** The fields the loop body reads *)

(** X13.  [parser], lines 165 to 180: the loop body reads the fields 1, 2, 4
    and 5 only.  Two rows that agree at these four positions give the same
    record and end the iteration in the same way. *)
Theorem X13_only_four_fields_read v v' :
  v !! 1%nat = v' !! 1%nat → v !! 2%nat = v' !! 2%nat →
  v !! 4%nat = v' !! 4%nat → v !! 5%nat = v' !! 5%nat →
  record_of v = record_of v' ∧
  (parse_row v = Continue ↔ parse_row v' = Continue) ∧
  (parse_row v = Panic ↔ parse_row v' = Panic) ∧
  (parse_row v = Abort (RecordError v) ↔ parse_row v' = Abort (RecordError v')).
Proof.
  intros H1 H2 H4 H5. unfold record_of. unfold_row.
  rewrite H1, H2, H4, H5.
  destruct (v' !! 1%nat) as [f1|]; [|done].
  destruct (SetString f1) as [n|]; [|done].
  destruct (v' !! 2%nat) as [f2|]; [|done].
  destruct (String.eqb f2 "-"); [done|].
  destruct (supportedCountries !! f2); [|done].
  destruct (v' !! 4%nat) as [f4|]; [|done].
  by destruct (v' !! 5%nat) as [f5|].
Qed.

Lemma X13_witness :
  record_of row_us = record_of row_us_other ∧
  (parse_row row_us = Continue ↔ parse_row row_us_other = Continue) ∧
  (parse_row row_us = Panic ↔ parse_row row_us_other = Panic) ∧
  (parse_row row_us = Abort (RecordError row_us)
   ↔ parse_row row_us_other = Abort (RecordError row_us_other)).
Proof.
  apply (X13_only_four_fields_read row_us row_us_other); reflexivity.
Defined.

(** X14.  [parser], lines 165 to 179: the loop body panics exactly on the
    rows of at most one field and, among the rows whose field 1 is a numeral,
    on those of two fields and on those of fewer than six fields whose country
    code is in [supportedCountries]. *)
Theorem X14_rows_that_panic v :
  parse_row v = Panic ↔
  (length v ≤ 1)%nat ∨
  ∃ f1, v !! 1%nat = Some f1 ∧ is_Some (SetString f1) ∧
        (length v = 2%nat ∨
         ∃ f2, v !! 2%nat = Some f2 ∧ whitelisted f2 ∧ (length v < 6)%nat).
Proof.
  rewrite parse_row_panic. split.
  - intros [H|[(f1 & H1 & Hn) H]].
    + left. by apply lookup_ge_None in H.
    + right. exists f1. split_and!; [done..|].
      destruct H as [H|(f2 & H2 & _ & Hw & H)].
      * left. apply lookup_ge_None in H. apply lookup_lt_Some in H1. lia.
      * right. exists f2. split_and!; [done..|].
        destruct H as [H|H]; apply lookup_ge_None in H; lia.
  - intros [H|(f1 & H1 & Hn & H)].
    + left. apply lookup_ge_None. lia.
    + right. split; [eauto|].
      destruct H as [H|(f2 & H2 & Hw & H)].
      * left. apply lookup_ge_None. lia.
      * right. exists f2. split_and!; [done| |done|].
        -- intros ->. by destruct Hw.
        -- destruct (v !! 4%nat) eqn:H4; [right|by left].
           apply lookup_ge_None. lia.
Qed.

(** ** Entries under other names *)

Lemma files_filter_target fs :
  files_rows (filter (λ f, Name f = target) fs) = files_rows fs ∧
  files_end (filter (λ f, Name f = target) fs) = files_end fs.
Proof.
  induction fs as [|f fs [IH1 IH2]]; [done|].
  destruct (decide (Name f = target)) as [Hn|Hn].
  - rewrite filter_cons_True by done. simpl. rewrite IH1, IH2. done.
  - rewrite filter_cons_False by done. simpl.
    apply String.eqb_neq in Hn. rewrite Hn. done.
Qed.

(** X15. [reader], lines 127 and 128: entries under any other name are never
    opened, whatever they hold and wherever they stand; an archive serves a
    collection exactly when the archive without those entries serves it. *)
Theorem X15_other_entries_ignored fs out :
  completes_with (inr fs) (Served out) ↔
  completes_with (inr (filter (λ f, Name f = target) fs)) (Served out).
Proof.
  rewrite !completes_sequential. unfold sequential. simpl.
  destruct (files_filter_target fs) as [-> ->]. done.
Qed.

(** ** The response *)

Lemma encode_all_spec recs : ∀ w,
  Encoded (encode_all w recs).1
  = Encoded w ++ take (written (Faults w) (length recs)) recs ∧
  Header (encode_all w recs).1 = Header w ∧
  ((encode_all w recs).2 = None ↔ written (Faults w) (length recs) = length recs) ∧
  (∀ e, (encode_all w recs).2 = Some e →
     (written (Faults w) (length recs) < length recs)%nat ∧
     ∃ m, Faults w !! written (Faults w) (length recs) = Some (Some m) ∧
          e = marshalling (LibError m)).
Proof.
  induction recs as [|v recs IH]; intros w; simpl.
  { rewrite app_nil_r. split_and!; try done. }
  unfold Encode. destruct (Faults w) as [|[m|] fs] eqn:Ef; simpl.
  - specialize (IH {| Header := Header w; Encoded := Encoded w ++ [v]; Faults := [] |}).
    simpl in IH. destruct IH as (IH1 & IH2 & IH3 & IH4).
    assert (written [] (length recs) = length recs) as Hw by (by destruct recs).
    rewrite Hw in *. rewrite IH1, IH2, <- app_assoc. simpl.
    split_and!; try done.
    + split; [done|]. intros _. by apply IH3.
    + intros e He. apply IH4 in He as [? _]. lia.
  - rewrite app_nil_r. split_and!; try done.
    intros e [= <-]. split; [lia|]. eauto.
  - specialize (IH {| Header := Header w; Encoded := Encoded w ++ [v]; Faults := fs |}).
    simpl in IH. destruct IH as (IH1 & IH2 & IH3 & IH4).
    rewrite IH1, IH2, <- app_assoc. simpl. split_and!; try done.
    + rewrite IH3. split; [congruence|]. by intros [= ->].
    + intros e He. apply IH4 in He as (? & m & ? & ?). split; [lia|]. eauto.
Qed.

Lemma written_le fs : ∀ n, (written fs n ≤ n)%nat.
Proof.
  induction fs as [|[m|] fs IH]; intros [|n]; simpl; try lia.
  specialize (IH n). lia.
Qed.

Lemma written_no_fault fs : ∀ n,
  Forall (λ f, f = None) (take n fs) → written fs n = n.
Proof.
  induction fs as [|f fs IH]; intros [|n]; simpl; try done.
  intros H. apply Forall_cons in H as [-> H]. f_equal. by apply IH.
Qed.




(** X16. [ip2locInit], lines 79 to 84: the records are written in order up to
    the first write that fails; the handler returns no error exactly when all
    of them were written, and otherwise the error of that write under the
    message "Error marshalling IP2Location data" with code 404, the records
    before it having been sent already. *)
Theorem X16_records_written_until_first_fault w recs :
  Encoded (respond w recs).1
  = Encoded w ++ take (written (Faults w) (length recs)) recs ∧
  ((respond w recs).2 = None ↔ written (Faults w) (length recs) = length recs) ∧
  (∀ e, (respond w recs).2 = Some e →
     (written (Faults w) (length recs) < length recs)%nat ∧
     Message e = "Error marshalling IP2Location data" ∧ Code e = 404 ∧
     ∃ m, Error e = LibError m ∧
          Faults w !! written (Faults w) (length recs) = Some (Some m)).
Proof.
  unfold respond.
  destruct (encode_all_spec recs
    (header_set "Recs-Length" (Itoa (length recs))
       (header_set "Content-Type" "application/json; charset=UTF-8" w)))
    as (H1 & _ & H3 & H4).
  simpl in *. split_and!; [done..|].
  intros e He. apply H4 in He as (Hlt & m & Hm & ->). eauto 10.
Qed.


(** X18. [fetch], [ip2locInit] and [ServeHTTP] together: when the download
    succeeds, the archive extracts without error, all its rows are well formed
    and no write to the response fails, some schedule brings the handler to
    return, and whenever it returns it returns no error, [http.Error] is not
    called, the response holds the records of the rows in extraction order
    after what it held, and Recs-Length is the number of rows whose country
    code is not the sentinel. *)
Theorem X18_request_served_end_to_end NewReader g w b len :
  fetch g = (b, len, None) →
  extraction_error (NewReader b len) = None →
  Forall well_formed (extracted (NewReader b len)) →
  Forall (λ f, f = None)
    (take (length (filter non_sentinel (extracted (NewReader b len)))) (Faults w)) →
  (∃ sched w', ip2locInit NewReader g w sched = Some (w', None)) ∧
  ∀ sched res, ip2locInit NewReader g w sched = Some res →
    res.2 = None ∧
    HttpError (ServeHTTP res) = None ∧
    Encoded res.1 = Encoded w ++ omap record_of (extracted (NewReader b len)) ∧
    Header res.1 !! "Recs-Length"
    = Some (Itoa (length (filter non_sentinel (extracted (NewReader b len))))).
Proof.
  intros Hf Hend Hwf Hfaults. set (body := NewReader b len) in *.
  assert (Hall : Forall processed (extracted body))
    by by apply well_formed_all_processed.
  assert (Hseq := sequential_processed body Hend Hall).
  assert (Hlen : length (omap record_of (extracted body))
                 = length (filter non_sentinel (extracted body))).
  { symmetry. eapply Forall2_length, omap_record_of, Hall. }
  rewrite <- Hlen in Hfaults. apply written_no_fault in Hfaults.
  assert (Hres : ∀ sched res, ip2locInit NewReader g w sched = Some res →
            res = respond w (omap record_of (extracted body))).
  { intros sched res. unfold ip2locInit. rewrite Hf. fold body.
    destruct (exec sched (init body)) as [s|] eqn:Hex; [|done]. simpl.
    destruct (co s) as [| |r] eqn:Hco; [done..|]. intros [= <-].
    destruct (pipeline_served body _ Hseq sched s Hex) as (_ & Hret & _).
    by rewrite (Hret r Hco). }
  assert (Hok : (respond w (omap record_of (extracted body))).2 = None).
  { unfold respond. apply encode_all_spec. simpl. done. }
  split.
  - destruct (ends_in_returns body _ (pipeline_served body _ Hseq))
      as (sched & s & r & Hex & Hco & ->).
    exists sched, (respond w (omap record_of (extracted body))).1.
    unfold ip2locInit. rewrite Hf. fold body. rewrite Hex. simpl. rewrite Hco.
    simpl. f_equal. rewrite <- Hok. by destruct (respond _ _).
  - intros sched res Hr. apply Hres in Hr as ->.
    split_and!; [done| | |].
    + destruct (respond _ _) as [w' e]. simpl in *. by subst e.
    + unfold respond.
      destruct (encode_all_spec (omap record_of (extracted body))
        (header_set "Recs-Length" (Itoa (length (omap record_of (extracted body))))
           (header_set "Content-Type" "application/json; charset=UTF-8" w)))
        as (-> & _). simpl. rewrite Hfaults. by rewrite firstn_all.
    + unfold respond.
      destruct (encode_all_spec (omap record_of (extracted body))
        (header_set "Recs-Length" (Itoa (length (omap record_of (extracted body))))
           (header_set "Content-Type" "application/json; charset=UTF-8" w)))
        as (_ & -> & _). simpl. rewrite lookup_insert_eq. by rewrite Hlen.
Qed.

Lemma X18_witness :
  ∃ sched w', ip2locInit (λ _ _, sample) (GetResponse [] None 0) plain_writer sched
              = Some (w', None).
Proof.
  apply (X18_request_served_end_to_end (λ _ _, sample) (GetResponse [] None 0)
           plain_writer [] 0).
  - reflexivity.
  - reflexivity.
  - apply sample_well_formed.
  - simpl. constructor.
Defined.



(** A write that fails after the first record: the record is sent, the
    header announces two. *)
Example failing_write_sends_part :
  Encoded (respond failing_writer [rec_us; rec_fr]).1 = [rec_us] ∧
  Header (respond failing_writer [rec_us; rec_fr]).1 !! "Recs-Length" = Some "2" ∧
  (respond failing_writer [rec_us; rec_fr]).2
  = Some (marshalling (LibError "broken pipe")).
Proof. split_and!; reflexivity. Qed.
